(** * just-expression: the policy-enforcing tree walker

    A shallow embedding of [extractDeclaration] and [transform]
    and of the properties stated about them.

    The walker compares nodes by reference ([body === node.body]) and
    mutates one shared scope array, so the embedding keeps an explicit
    object store: an ESTree node is a cell of the store, its children are
    addresses, and every object literal of the source is an allocation. *)

From stdpp Require Import base list strings sets.

Open Scope string_scope.

(** ** ESTree nodes *)

(** An address of the object store. *)
Abbreviation loc := nat (only parsing).

(** One ESTree node, children by address.  Child arrays are kept inline;
    [None] in [elements] is a hole ([null] in ESTree).  The six expression
    kinds that [ENTER] rejects outright carry no fields: nothing below
    them is ever read. *)
Inductive node : Type :=
  | Identifier (name : string)
  | Literal (raw : string)
  | ArrayExpression (elements : list (option loc))
  | ObjectExpression (properties : list loc)
  | MemberExpression (object property : loc) (computed optional : bool)
  | ChainExpression (expression : loc)
  | LogicalExpression (operator : string) (left right : loc)
  | SequenceExpression (expressions : list loc)
  | ConditionalExpression (test consequent alternate : loc)
  | TemplateLiteral (quasis expressions : list loc)
  | ArrowFunctionExpression (params : list loc) (body : loc) (async : bool)
  | UnaryExpression (operator : string) (argument : loc)
  | BinaryExpression (operator : string) (left right : loc)
  | UpdateExpression (operator : string) (prefix : bool) (argument : loc)
  | AssignmentExpression (operator : string) (left right : loc)
  | NewExpression (callee : loc) (arguments : list loc)
  | CallExpression (callee : loc) (arguments : list loc) (optional : bool)
  | TaggedTemplateExpression (tag quasi : loc)
  | ThisExpression
  | FunctionExpression
  | ClassExpression
  | MetaProperty
  | YieldExpression
  | AwaitExpression
  | ImportExpression
  | Property (key value : loc) (computed : bool) (kind : string)
             (method shorthand : bool)
  | ObjectPattern (properties : list loc)
  | ArrayPattern (elements : list (option loc))
  | RestElement (argument : loc)
  | AssignmentPattern (left right : loc)
  | SpreadElement (argument : loc)
  | TemplateElement (raw : string) (tail : bool)
  | Super
  | PrivateIdentifier (name : string)
  | BlockStatement
  | OtherNode (type : string).

(** [node.type] *)
Definition node_type (n : node) : string :=
  match n with
  | Identifier _ => "Identifier"
  | Literal _ => "Literal"
  | ArrayExpression _ => "ArrayExpression"
  | ObjectExpression _ => "ObjectExpression"
  | MemberExpression _ _ _ _ => "MemberExpression"
  | ChainExpression _ => "ChainExpression"
  | LogicalExpression _ _ _ => "LogicalExpression"
  | SequenceExpression _ => "SequenceExpression"
  | ConditionalExpression _ _ _ => "ConditionalExpression"
  | TemplateLiteral _ _ => "TemplateLiteral"
  | ArrowFunctionExpression _ _ _ => "ArrowFunctionExpression"
  | UnaryExpression _ _ => "UnaryExpression"
  | BinaryExpression _ _ _ => "BinaryExpression"
  | UpdateExpression _ _ _ => "UpdateExpression"
  | AssignmentExpression _ _ _ => "AssignmentExpression"
  | NewExpression _ _ => "NewExpression"
  | CallExpression _ _ _ => "CallExpression"
  | TaggedTemplateExpression _ _ => "TaggedTemplateExpression"
  | ThisExpression => "ThisExpression"
  | FunctionExpression => "FunctionExpression"
  | ClassExpression => "ClassExpression"
  | MetaProperty => "MetaProperty"
  | YieldExpression => "YieldExpression"
  | AwaitExpression => "AwaitExpression"
  | ImportExpression => "ImportExpression"
  | Property _ _ _ _ _ _ => "Property"
  | ObjectPattern _ => "ObjectPattern"
  | ArrayPattern _ => "ArrayPattern"
  | RestElement _ => "RestElement"
  | AssignmentPattern _ _ => "AssignmentPattern"
  | SpreadElement _ => "SpreadElement"
  | TemplateElement _ _ => "TemplateElement"
  | Super => "Super"
  | PrivateIdentifier _ => "PrivateIdentifier"
  | BlockStatement => "BlockStatement"
  | OtherNode type => type
  end.

(** ** The machine: object store, scope array, exceptions *)

(** The store of ESTree objects together with the one scope array of a
    traversal (the walker's [state]; [transform] hands its own [params]
    array to the walker, every handler passes it on by reference). *)
Record mem : Type := Mem { objs : list node; scope : list string }.

Inductive error : Type :=
  | SyntaxError (msg : string)
  | ReferenceError (msg : string)
  | Error (msg : string)
  | AssertionError.

(** Why a computation did not return: a JavaScript exception, the
    recursion bound of the embedding, or an address outside the store
    (no JavaScript value is such an address). *)
Inductive abort : Type :=
  | Throw (e : error)
  | NoFuel
  | Stuck.

Inductive res (A : Type) : Type :=
  | Ok (a : A)
  | Abort (x : abort).
Arguments Ok {A} a.
Arguments Abort {A} x.

(** Computations: the memory survives an exception, as it does in
    JavaScript. *)
Definition M (A : Type) : Type := mem -> res A * mem.

Definition ret {A} (a : A) : M A := fun m => (Ok a, m).

Definition bind {A B} (c : M A) (k : A -> M B) : M B :=
  fun m =>
    match c m with
    | (Ok a, m') => k a m'
    | (Abort x, m') => (Abort x, m')
    end.

Declare Scope walker_scope.
Delimit Scope walker_scope with walker.
Notation "x <- c ;; k" := (bind c (fun x => k))
  (at level 100, c at next level, right associativity) : walker_scope.
Notation "c ;; k" := (bind c (fun _ => k))
  (at level 100, right associativity) : walker_scope.
Open Scope walker_scope.

Definition throw {A} (e : error) : M A := fun m => (Abort (Throw e), m).
Definition out_of_fuel {A} : M A := fun m => (Abort NoFuel, m).

(** Read the object at an address. *)
Definition deref (l : loc) : M node :=
  fun m =>
    match objs m !! l with
    | Some n => (Ok n, m)
    | None => (Abort Stuck, m)
    end.

(** An object literal: a fresh object at the next free address. *)
Definition alloc (n : node) : M loc :=
  fun m => (Ok (length (objs m)), Mem (objs m ++ [n]) (scope m)).

(** [scope.push(name)] *)
Definition push (name : string) : M unit :=
  fun m => (Ok tt, Mem (objs m) (scope m ++ [name])).

(** [state.includes(name)] *)
Definition includes (name : string) : M bool :=
  fun m => (Ok (bool_decide (name ∈ scope m)), m).

(** [state.length] *)
Definition scope_length : M nat :=
  fun m => (Ok (length (scope m)), m).

(** [state.splice(start)]: drops every element from index [start] on. *)
Definition splice (start : nat) : M unit :=
  fun m => (Ok tt, Mem (objs m) (take start (scope m))).

(** [for (const x of xs) body(x)] *)
Fixpoint for_of {A} (xs : list A) (body : A -> M unit) : M unit :=
  match xs with
  | [] => ret tt
  | x :: xs' => body x ;; for_of xs' body
  end.

(** ** extractDeclaration *)

Fixpoint extractDeclaration (fuel : nat) (pattern : loc) : M unit :=
  match fuel with
  | O => out_of_fuel
  | S fuel' =>
      pat <- deref pattern ;;
      match pat with
      | Identifier name => push name
      | ObjectPattern properties =>
          for_of properties (fun p =>
            prop <- deref p ;;
            match prop with
            | RestElement argument => extractDeclaration fuel' argument
            | Property _ value _ _ _ _ => extractDeclaration fuel' value
            | _ => throw (SyntaxError "unknown ObjectPattern syntax")
            end)
      | ArrayPattern elements =>
          for_of elements (fun e =>
            match e with
            | Some e' => extractDeclaration fuel' e'
            | None => ret tt
            end)
      | RestElement argument => extractDeclaration fuel' argument
      | AssignmentPattern left_ _ => extractDeclaration fuel' left_
      | _ => throw (Error "unknown Pattern syntax")
      end
  end.

(** ** transform *)

(** The feature switches, under the names [transform] destructures them
    to. *)
Record enables : Type := Enables {
  enableThis : bool;
  enableCall : bool;
  enableArrow : bool;
  enableUpdate : bool;
  enableInspect : bool
}.

(** The defaults of [transform]'s last parameter. *)
Definition default_enables : enables :=
  {| enableThis := false; enableCall := true; enableArrow := true;
     enableUpdate := false; enableInspect := false |}.

(** [test] of the [ENTER] hook. *)
Definition test (cond : bool) (err : string) : M unit :=
  if cond then ret tt else throw (SyntaxError err).

(** devlop's [ok].  Which function the import resolves to depends on the
    build: under the [development] export condition it is an assertion
    that throws, in the default build it is an empty function.  Its
    argument is evaluated in both. *)
Definition ok (development : bool) (cond : bool) : M unit :=
  if development then (if cond then ret tt else throw AssertionError)
  else ret tt.

(** Modelled from the spec: the walker factory of the immer-walker package
    is not part of the sources.  On every node it calls the [ENTER] hook,
    then the handler registered for the node's type; a node without a
    handler has every child walked, left to right, and is rebuilt only if
    some child came back as another reference.  [children] lists the child
    positions of the kinds without a handler, [with_children] is the
    rebuilt node. *)
Definition children (n : node) : list (option loc) :=
  match n with
  | ArrayExpression elements | ArrayPattern elements => elements
  | ObjectExpression properties | ObjectPattern properties => Some <$> properties
  | SequenceExpression expressions => Some <$> expressions
  | ChainExpression e | UnaryExpression _ e | UpdateExpression _ _ e
  | RestElement e | SpreadElement e => [Some e]
  | LogicalExpression _ a b | BinaryExpression _ a b
  | AssignmentExpression _ a b | AssignmentPattern a b
  | TaggedTemplateExpression a b => [Some a; Some b]
  | ConditionalExpression a b c => [Some a; Some b; Some c]
  | TemplateLiteral quasis expressions => Some <$> (quasis ++ expressions)%list
  | NewExpression callee arguments | CallExpression callee arguments _ =>
      Some callee :: (Some <$> arguments)
  | _ => []
  end.

(** The addresses of a child array. *)
Definition present (cs : list (option loc)) : list loc := omap id cs.

Definition with_children (n : node) (cs : list (option loc)) : node :=
  match n, cs with
  | ArrayExpression _, _ => ArrayExpression cs
  | ArrayPattern _, _ => ArrayPattern cs
  | ObjectExpression _, _ => ObjectExpression (present cs)
  | ObjectPattern _, _ => ObjectPattern (present cs)
  | SequenceExpression _, _ => SequenceExpression (present cs)
  | ChainExpression _, [Some e] => ChainExpression e
  | UnaryExpression op _, [Some e] => UnaryExpression op e
  | UpdateExpression op prefix _, [Some e] => UpdateExpression op prefix e
  | RestElement _, [Some e] => RestElement e
  | SpreadElement _, [Some e] => SpreadElement e
  | LogicalExpression op _ _, [Some a; Some b] => LogicalExpression op a b
  | BinaryExpression op _ _, [Some a; Some b] => BinaryExpression op a b
  | AssignmentExpression op _ _, [Some a; Some b] => AssignmentExpression op a b
  | AssignmentPattern _ _, [Some a; Some b] => AssignmentPattern a b
  | TaggedTemplateExpression _ _, [Some a; Some b] => TaggedTemplateExpression a b
  | ConditionalExpression _ _ _, [Some a; Some b; Some c] =>
      ConditionalExpression a b c
  | TemplateLiteral quasis _, _ =>
      TemplateLiteral (present (take (length quasis) cs))
                      (present (drop (length quasis) cs))
  | NewExpression _ _, Some callee :: arguments =>
      NewExpression callee (present arguments)
  | CallExpression _ _ optional, Some callee :: arguments =>
      CallExpression callee (present arguments) optional
  | _, _ => n
  end.

Fixpoint walk_children (w : loc -> M loc) (cs : list (option loc))
  : M (list (option loc)) :=
  match cs with
  | [] => ret []
  | None :: cs' =>
      cs'' <- walk_children w cs' ;;
      ret (None :: cs'')
  | Some c :: cs' =>
      c' <- w c ;;
      cs'' <- walk_children w cs' ;;
      ret (Some c' :: cs'')
  end.

(** The descent into a node without a handler. *)
Definition descend (w : loc -> M loc) (n : loc) (node : node) : M loc :=
  cs <- walk_children w (children node) ;;
  if bool_decide (cs = children node) then ret n
  else alloc (with_children node cs).

Section walker.

(** The build [ok] is taken from, [transform]'s [global] ([None] for
    [null] and [undefined]) and the switches, fixed for one traversal. *)
Variable development : bool.
Variable global : option string.
Variable cfg : enables.

(** The [ENTER] hook. *)
Definition ENTER (expr : node) : M unit :=
  match expr with
  | Identifier _ | Literal _ | ArrayExpression _ | ObjectExpression _
  | MemberExpression _ _ _ _ | ChainExpression _ | LogicalExpression _ _ _
  | SequenceExpression _ | ConditionalExpression _ _ _
  | TemplateLiteral _ _ =>
      ret tt
  | ArrowFunctionExpression _ _ _ =>
      test (enableArrow cfg)
           ("expression " +:+ node_type expr +:+ " is disabled")
  | UnaryExpression operator _ | BinaryExpression operator _ _ =>
      test ((enableUpdate cfg || bool_decide (operator ≠ "delete"))
            && (enableInspect cfg
                || (bool_decide (operator ≠ "typeof")
                    && bool_decide (operator ≠ "in")
                    && bool_decide (operator ≠ "instanceof"))))
           ("operator " +:+ operator +:+ " is disabled")
  | UpdateExpression operator _ _ | AssignmentExpression operator _ _ =>
      test (enableUpdate cfg) ("operator " +:+ operator +:+ " is disabled")
  | NewExpression _ _ | CallExpression _ _ _
  | TaggedTemplateExpression _ _ =>
      test (enableCall cfg)
           ("expression " +:+ node_type expr +:+ " is disabled")
  | ThisExpression =>
      test (enableThis cfg)
           ("expression " +:+ node_type expr +:+ " is disabled")
  | FunctionExpression | ClassExpression | MetaProperty | YieldExpression
  | AwaitExpression | ImportExpression =>
      test false ("expression " +:+ node_type expr +:+ " is not supported")
  | Property _ _ _ _ _ _ | ObjectPattern _ | ArrayPattern _ | RestElement _
  | AssignmentPattern _ _ | SpreadElement _ | TemplateElement _ _ =>
      ret tt
  | Super | PrivateIdentifier _ | BlockStatement | OtherNode _ =>
      throw (SyntaxError ("unknown node type " +:+ node_type expr))
  end.

(** [walk(node, state)]: the hook, then the handler of the node's type
    ([ArrowFunctionExpression], [MemberExpression], [Property],
    [Identifier]) or the generic descent. *)
Fixpoint walk (fuel : nat) (n : loc) : M loc :=
  match fuel with
  | O => out_of_fuel
  | S fuel' =>
      node <- deref n ;;
      ENTER node ;;
      match node with
      | ArrowFunctionExpression params body async =>
          b <- deref body ;;
          if bool_decide (node_type b = "BlockStatement") then
            throw (SyntaxError
                     "arrow function with block statement is not allowed")
          else
            length <- scope_length ;;
            for_of params (extractDeclaration fuel') ;;
            body' <- walk fuel' body ;;
            splice length ;;
            if bool_decide (body' = body) then ret n
            else alloc (ArrowFunctionExpression params body' async)
      | MemberExpression object property computed optional =>
          o <- deref object ;;
          ok development (bool_decide (node_type o ≠ "Super")) ;;
          p <- deref property ;;
          ok development (bool_decide (node_type p ≠ "PrivateIdentifier")) ;;
          object' <- walk fuel' object ;;
          property' <- (if computed then walk fuel' property
                        else ret property) ;;
          if bool_decide (object' = object ∧ property' = property)
          then ret n
          else alloc (MemberExpression object' property' computed optional)
      | Property key value computed kind method shorthand =>
          k <- deref key ;;
          ok development (bool_decide (node_type k ≠ "PrivateIdentifier")) ;;
          key' <- (if computed then walk fuel' key else ret key) ;;
          value' <- walk fuel' value ;;
          if bool_decide (key' = key ∧ value' = value) then ret n
          else alloc (Property key' value' computed kind method shorthand)
      | Identifier name =>
          bound <- includes name ;;
          if bound then ret n
          else
            match global with
            | None =>
                throw (ReferenceError
                         ("variable '" +:+ name +:+ "' is not defined"))
            | Some g =>
                object <- alloc (if bool_decide (g = "this")
                                 then ThisExpression else Identifier g) ;;
                property <- alloc (Identifier name) ;;
                alloc (MemberExpression object property false false)
            end
      | _ => descend (walk fuel') n node
      end
  end.

End walker.

Section transform.

(** [isIdent] of src/util.ts: a Unicode identifier pattern and the
    reserved words of the reserved-identifiers package, neither of which
    is in the sources. *)
Variable isIdent : string -> bool.

(** The build [ok] is taken from. *)
Variable development : bool.

(** The loop over [params.entries()]: [rest] is the part of the array
    after the current index, where [indexOf(param, idx + 1)] searches. *)
Fixpoint check_params (params : list string) : M unit :=
  match params with
  | [] => ret tt
  | param :: rest =>
      if negb (isIdent param) then
        throw (SyntaxError ("parameter name '" +:+ param
                            +:+ "' is not a valid identifier"))
      else if bool_decide (param ∈ rest) then
        throw (SyntaxError ("duplicate parameter name '" +:+ param +:+ "'"))
      else check_params rest
  end.

(** [transform(ast, params, global, enables)] on the store [h].  The
    walker's default state is the [params] array itself. *)
Definition transform (fuel : nat) (ast : loc) (params : list string)
    (global : option string) (cfg : enables) (h : list node)
  : res loc * mem :=
  (check_params params ;;
   match global with
   | Some g =>
       if bool_decide (g ≠ "this") && negb (bool_decide (g ∈ params)) then
         throw (SyntaxError ("global object name '" +:+ g
                             +:+ "' is not in parameter list"))
       else walk development global cfg fuel ast
   | None => walk development global cfg fuel ast
   end) (Mem h params).

End transform.

(** ** What the properties are stated with *)

(** The admission rule of a node kind under the switches, as the policy
    table reads: the always admitted kinds, the kinds behind a switch, and
    everything else refused. *)
Definition admitted (cfg : enables) (n : node) : bool :=
  match n with
  | Identifier _ | Literal _ | ArrayExpression _ | ObjectExpression _
  | MemberExpression _ _ _ _ | ChainExpression _ | LogicalExpression _ _ _
  | SequenceExpression _ | ConditionalExpression _ _ _ | TemplateLiteral _ _
  | Property _ _ _ _ _ _ | ObjectPattern _ | ArrayPattern _ | RestElement _
  | AssignmentPattern _ _ | SpreadElement _ | TemplateElement _ _ => true
  | ArrowFunctionExpression _ _ _ => enableArrow cfg
  | UnaryExpression op _ | BinaryExpression op _ _ =>
      negb (bool_decide (op = "delete") && negb (enableUpdate cfg))
      && negb (bool_decide (op ∈ ["typeof"; "in"; "instanceof"])
               && negb (enableInspect cfg))
  | UpdateExpression _ _ _ | AssignmentExpression _ _ _ => enableUpdate cfg
  | NewExpression _ _ | CallExpression _ _ _ | TaggedTemplateExpression _ _ =>
      enableCall cfg
  | ThisExpression => enableThis cfg
  | _ => false
  end.

(** The names a list of pattern positions binds, one after the other. *)
Fixpoint collect {A} (names : A -> option (list string)) (xs : list A)
  : option (list string) :=
  match xs with
  | [] => Some []
  | x :: xs' =>
      match names x, collect names xs' with
      | Some a, Some b => Some (a ++ b)%list
      | _, _ => None
      end
  end.

(** The names a pattern binds, left to right and outer to inner, as the
    binding scanner's contract lists them; [None] for a shape that is not
    a pattern (or deeper than [fuel]). *)
Fixpoint bound_names (fuel : nat) (h : list node) (pattern : loc)
  : option (list string) :=
  match fuel with
  | O => None
  | S fuel' =>
      match h !! pattern with
      | Some (Identifier name) => Some [name]
      | Some (ObjectPattern properties) =>
          collect (fun p =>
            match h !! p with
            | Some (Property _ value _ _ _ _) => bound_names fuel' h value
            | Some (RestElement target) => bound_names fuel' h target
            | _ => None
            end) properties
      | Some (ArrayPattern elements) =>
          collect (fun e =>
            match e with
            | Some e' => bound_names fuel' h e'
            | None => Some []
            end) elements
      | Some (RestElement target) => bound_names fuel' h target
      | Some (AssignmentPattern target _) => bound_names fuel' h target
      | _ => None
      end
  end.

(** The five kinds [extractDeclaration] has a case for. *)
Definition is_pattern (n : node) : bool :=
  match n with
  | Identifier _ | ObjectPattern _ | ArrayPattern _ | RestElement _
  | AssignmentPattern _ _ => true
  | _ => false
  end.

(** A name position: a non-computed property name or key, which the
    walker reads the type of and passes through unexamined; a private
    name there is refused only where [ok] checks. *)
Definition plain_name (development : bool) (h : list node) (l : loc) : bool :=
  match h !! l with
  | Some n => negb development
              || bool_decide (node_type n ≠ "PrivateIdentifier")
  | None => false
  end.

(** Every present child satisfies [p]. *)
Definition all_children (p : loc -> bool) (cs : list (option loc)) : bool :=
  forallb (fun c => match c with Some c' => p c' | None => true end) cs.

(** The access the identifier handler synthesizes on the self-reference:
    a [this] node as object and an identifier as property name. *)
Definition this_access (h : list node) (object property : loc) : bool :=
  match h !! object, h !! property with
  | Some ThisExpression, Some (Identifier _) => true
  | _, _ => false
  end.

(** A certified tree: every node the walker examines is admitted under
    [cfg], and every identifier in expression position is a member of the
    scope at that position, that is of [sc] extended with the names bound
    by the enclosing arrow functions.  Non-computed property names and
    keys are name positions; the parameter patterns of an arrow function
    are read for the names they bind only.  With [synth] a [this] node is
    moreover accepted, whatever the [this] switch, in one place: as the
    object of a non-computed access by an identifier. *)
Fixpoint certified (development synth : bool) (fuel : nat) (cfg : enables)
    (h : list node) (sc : list string) (l : loc) : bool :=
  match fuel with
  | O => false
  | S fuel' =>
      match h !! l with
      | None => false
      | Some n =>
          admitted cfg n &&
          match n with
          | Identifier name => bool_decide (name ∈ sc)
          | ArrowFunctionExpression params body _ =>
              match collect (bound_names fuel' h) params with
              | Some names =>
                  certified development synth fuel' cfg h
                    (sc ++ names)%list body
              | None => false
              end
          | MemberExpression object property computed _ =>
              if synth && negb computed && this_access h object property
              then true
              else
                certified development synth fuel' cfg h sc object
                && (if computed
                    then certified development synth fuel' cfg h sc property
                    else plain_name development h property)
          | Property key value computed _ _ _ =>
              (if computed
               then certified development synth fuel' cfg h sc key
               else plain_name development h key)
              && certified development synth fuel' cfg h sc value
          | _ =>
              all_children (certified development synth fuel' cfg h sc)
                (children n)
          end
      end
  end.

(** Whether a traversal synthesizes [this] nodes the switches refuse: the
    global binding is the self-reference and the [this] switch is off. *)
Definition synthesizes_this (global : option string) (cfg : enables) : bool :=
  bool_decide (global = Some "this") && negb (enableThis cfg).

(** All child references of a node, in field order, the ones the walker
    walks and the ones it does not. *)
Definition kids (n : node) : list (option loc) :=
  match n with
  | ArrowFunctionExpression params body _ =>
      ((Some <$> params) ++ [Some body])%list
  | MemberExpression object property _ _ => [Some object; Some property]
  | Property key value _ _ _ _ => [Some key; Some value]
  | _ => children n
  end.

(** Whether the walker walks the [i]-th child of a node: the body of an
    arrow function but not its parameters, the property of an access and
    the key of an entry only if computed. *)
Definition walked (n : node) (i : nat) : bool :=
  match n with
  | ArrowFunctionExpression params _ _ => bool_decide (i = length params)
  | MemberExpression _ _ computed _ => bool_decide (i = 0) || computed
  | Property _ _ computed _ _ _ => bool_decide (i = 1) || computed
  | _ => true
  end.

(** The scope below a node: that of the node, extended under an arrow
    function with the names its parameters bind. *)
Definition child_scope (fuel : nat) (h : list node) (sc : list string)
    (n : node) : option (list string) :=
  match n with
  | ArrowFunctionExpression params _ _ =>
      match collect (bound_names fuel h) params with
      | Some names => Some (sc ++ names)%list
      | None => None
      end
  | _ => Some sc
  end.

(** The node at a position of a tree, a position being the list of child
    indices that leads to it. *)
Fixpoint at_path (h : list node) (n : loc) (path : list nat) : option loc :=
  match path with
  | [] => Some n
  | i :: path' =>
      match h !! n with
      | Some node =>
          match kids node !! i with
          | Some (Some c) => at_path h c path'
          | _ => None
          end
      | None => None
      end
  end.

(** The node at a position, with the scope it is reached with and
    whether every step to it is one the walker takes; [fuel] bounds the
    depth of the parameter patterns read on the way. *)
Fixpoint locate (fuel : nat) (h : list node) (sc : list string) (w : bool)
    (n : loc) (path : list nat) : option (loc * list string * bool) :=
  match path with
  | [] => Some (n, sc, w)
  | i :: path' =>
      match h !! n with
      | Some node =>
          match kids node !! i, child_scope fuel h sc node with
          | Some (Some c), Some sc' =>
              locate fuel h sc' (w && walked node i) c path'
          | _, _ => None
          end
      | None => None
      end
  end.

(** The global binding is usable at a scope: it is the self-reference or
    one of the names in scope. *)
Definition global_bound (global : option string) (sc : list string) : Prop :=
  match global with
  | Some g => g = "this" \/ g ∈ sc
  | None => True
  end.

(** The entry check on the global binding. *)
Definition global_ok (global : option string) (params : list string) : bool :=
  match global with
  | Some g => negb (bool_decide (g ≠ "this") && negb (bool_decide (g ∈ params)))
  | None => true
  end.

(** The kinds [transform] registers a handler for. *)
Definition handled (n : node) : bool :=
  match n with
  | Identifier _ | ArrowFunctionExpression _ _ _ | MemberExpression _ _ _ _
  | Property _ _ _ _ _ _ => true
  | _ => false
  end.

(** Where a child array has holes. *)
Definition shape (cs : list (option loc)) : list bool :=
  (fun c : option loc => match c with Some _ => true | None => false end)
    <$> cs.

(** A computation that leaves every object it finds in the store as it
    is, whatever its outcome. *)
Definition extends {A} (c : M A) : Prop :=
  forall m, objs m `prefix_of` objs (c m).2.

(** A computation that, when it returns, leaves the scope array as it
    found it. *)
Definition restores {A} (c : M A) : Prop :=
  forall m a m', c m = (Ok a, m') -> scope m' = scope m.

(** [c'] agrees with [c] wherever [c] comes to an outcome of the source
    program, that is anything but the recursion bound of the embedding. *)
Definition agrees {A} (c c' : M A) : Prop :=
  forall m r m', c m = (r, m') -> r <> Abort NoFuel -> c' m = (r, m').

(** The outcome of a scan that is to append [names]: it returns with
    exactly these names pushed, or, when there are none to give because
    the shape is no pattern, it does not return. *)
Definition scans (c : M unit) (h : list node) (sc : list string)
    (names : option (list string)) : Prop :=
  match names with
  | Some ns => c (Mem h sc) = (Ok tt, Mem h (sc ++ ns)%list)
  | None => exists x m', c (Mem h sc) = (Abort x, m')
  end.

(** ** Example trees *)

(** Stand-in for [isIdent] on the examples: letters, digits, [_] and [$],
    not starting with a digit. *)
Definition ident_char (digits : bool) (c : Ascii.ascii) : bool :=
  let k := Ascii.nat_of_ascii c in
  ((65 <=? k) && (k <=? 90) || (97 <=? k) && (k <=? 122)
   || (k =? 95) || (k =? 36) || digits && (48 <=? k) && (k <=? 57))%nat.

Fixpoint ident_tail (s : string) : bool :=
  match s with
  | EmptyString => true
  | String c rest => ident_char true c && ident_tail rest
  end.

Definition ascii_ident (s : string) : bool :=
  match s with
  | EmptyString => false
  | String c rest => ident_char false c && ident_tail rest
  end.

(** [a] *)
Definition tree_a : list node := [Identifier "a"].

(** [(a = b) => a], root at 4. *)
Definition tree_default_param : list node :=
  [ Identifier "a";                       (* 0: the parameter's target *)
    Identifier "b";                       (* 1: its default value *)
    AssignmentPattern 0 1;                (* 2 *)
    Identifier "a";                       (* 3: the body *)
    ArrowFunctionExpression [2] 3 false   (* 4 *) ].

(** [({a: {a: [, a], ...c}, c: b = 2}) => a + b + c.d], root at 22, its
    parameter pattern at 14. *)
Definition tree_complex_pattern : list node :=
  [ Identifier "a";                       (* 0: key a *)
    Identifier "a";                       (* 1: key a (inner) *)
    Identifier "a";                       (* 2: element a *)
    ArrayPattern [None; Some 2];          (* 3: [, a] *)
    Property 1 3 false "init" false false; (* 4: a: [, a] *)
    Identifier "c";                       (* 5 *)
    RestElement 5;                        (* 6: ...c *)
    ObjectPattern [4; 6];                 (* 7: {a: [, a], ...c} *)
    Property 0 7 false "init" false false; (* 8 *)
    Identifier "c";                       (* 9: key c *)
    Identifier "b";                       (* 10 *)
    Literal "2";                          (* 11 *)
    AssignmentPattern 10 11;              (* 12: b = 2 *)
    Property 9 12 false "init" false false; (* 13: c: b = 2 *)
    ObjectPattern [8; 13];                (* 14: the parameter *)
    Identifier "a";                       (* 15 *)
    Identifier "b";                       (* 16 *)
    BinaryExpression "+" 15 16;           (* 17: a + b *)
    Identifier "c";                       (* 18 *)
    Identifier "d";                       (* 19 *)
    MemberExpression 18 19 false false;   (* 20: c.d *)
    BinaryExpression "+" 17 20;           (* 21: a + b + c.d *)
    ArrowFunctionExpression [14] 21 false (* 22 *) ].

(** The tree [transform] returns for [a] under the self-reference:
    [this.a], root at 3. *)
Definition tree_this_a : list node :=
  [ Identifier "a"; ThisExpression; Identifier "a";
    MemberExpression 1 2 false false ].

(** The tree [transform] returns for [a] under the global binding [g]:
    [g.a], root at 3. *)
Definition tree_g_a : list node :=
  [ Identifier "a"; Identifier "g"; Identifier "a";
    MemberExpression 1 2 false false ].

(** [a => b => a + b + c], root at 8. *)
Definition tree_curry : list node :=
  [ Identifier "a";                       (* 0: parameter a *)
    Identifier "b";                       (* 1: parameter b *)
    Identifier "a";                       (* 2 *)
    Identifier "b";                       (* 3 *)
    BinaryExpression "+" 2 3;             (* 4: a + b *)
    Identifier "c";                       (* 5 *)
    BinaryExpression "+" 4 5;             (* 6: a + b + c *)
    ArrowFunctionExpression [1] 6 false;  (* 7: b => a + b + c *)
    ArrowFunctionExpression [0] 7 false   (* 8 *) ].

(** [a => b => a + b + c] as [transform] returns it under the global
    binding [g]: the two arrow functions and the sum are copies around
    the synthesized [g.c], root at 14. *)
Definition tree_curry_g : list node :=
  (tree_curry ++
   [ Identifier "g"; Identifier "c"; MemberExpression 9 10 false false;
     BinaryExpression "+" 4 11;
     ArrowFunctionExpression [1] 12 false;
     ArrowFunctionExpression [0] 13 false ])%list.

(** [typeof a], root at 1. *)
Definition tree_typeof : list node :=
  [ Identifier "a"; UnaryExpression "typeof" 0 ].

(** ** What the further properties are stated with *)

(** Every switch that is on in [cfg] is on in [cfg']. *)
Definition enables_le (cfg cfg' : enables) : Prop :=
  (enableThis cfg = true -> enableThis cfg' = true)
  /\ (enableCall cfg = true -> enableCall cfg' = true)
  /\ (enableArrow cfg = true -> enableArrow cfg' = true)
  /\ (enableUpdate cfg = true -> enableUpdate cfg' = true)
  /\ (enableInspect cfg = true -> enableInspect cfg' = true).

(** A child array with every address blanked, holes kept. *)
Definition blank (cs : list (option loc)) : list (option loc) :=
  (fun c : option loc => match c with Some _ => Some 0 | None => None end)
    <$> cs.

(** A node without the references the walker may replace: its type,
    operator, flags, parameter list, non-computed property name or key,
    and the holes of its child arrays. *)
Definition skeleton (n : node) : node :=
  match n with
  | ArrowFunctionExpression params _ async =>
      ArrowFunctionExpression params 0 async
  | MemberExpression _ property computed optional =>
      MemberExpression 0 (if computed then 0 else property) computed optional
  | Property key _ computed kind method shorthand =>
      Property (if computed then 0 else key) 0 computed kind method shorthand
  | _ => with_children n (blank (children n))
  end.

(** The two entry kinds [extractDeclaration] accepts in an object
    pattern. *)
Definition is_entry (n : node) : bool :=
  match n with
  | Property _ _ _ _ _ _ | RestElement _ => true
  | _ => false
  end.

(** [c'] returns whatever [c] returns. *)
Definition simulates {A} (c c' : M A) : Prop :=
  forall m a m', c m = (Ok a, m') -> c' m = (Ok a, m').

(** A computation whose final memory, whatever the outcome, is related to
    the initial one by [R]. *)
Definition post {A} (R : mem -> mem -> Prop) (c : M A) : Prop :=
  forall m, R m (c m).2.

(** A computation that never drops a name from the scope array. *)
Definition scope_grows {A} (c : M A) : Prop :=
  post (fun m m' => scope m `prefix_of` scope m') c.

(** A computation that leaves the store exactly as it is. *)
Definition keeps_store {A} (c : M A) : Prop :=
  post (fun m m' => objs m' = objs m) c.

(** The names an entry of an object pattern binds: those of a property
    entry's value, those of a rest capture's target. *)
Definition entry_names (fuel : nat) (h : list node) (p : loc)
  : option (list string) :=
  match h !! p with
  | Some (Property _ value _ _ _ _) => bound_names fuel h value
  | Some (RestElement target) => bound_names fuel h target
  | _ => None
  end.

(** A computation that never ends in an unresolved-reference error. *)
Definition resolves {A} (c : M A) : Prop :=
  forall m msg, (c m).1 <> Abort (Throw (ReferenceError msg)).

(** A walk step that returns either the reference it was given, with the
    memory untouched, or a reference that was not in the store before. *)
Definition same_or_fresh (w : loc -> M loc) : Prop :=
  forall n m T m', w n m = (Ok T, m') ->
    n < length (objs m)
    /\ ((T = n /\ m' = m)
        \/ (length (objs m) <= T /\ T < length (objs m'))).

(** A walk step that can only return the reference it was given, with the
    memory untouched. *)
Definition returns_input (w : loc -> M loc) : Prop :=
  forall n m T m', w n m = (Ok T, m') -> T = n /\ m' = m.

(** [new Boolean()], root at 1; [super.x], root at 4; [x => { ... }],
    root at 7; [{a: 1, b} = c] with a malformed second entry, pattern
    at 12. *)
Definition tree_misc : list node :=
  [ Identifier "Boolean";                 (* 0 *)
    NewExpression 0 [];                   (* 1: new Boolean() *)
    Super;                                (* 2 *)
    Identifier "x";                       (* 3 *)
    MemberExpression 2 3 false false;     (* 4: super.x *)
    Identifier "x";                       (* 5 *)
    BlockStatement;                       (* 6 *)
    ArrowFunctionExpression [5] 6 false;  (* 7: x => { } *)
    Identifier "a";                       (* 8 *)
    Identifier "p";                       (* 9 *)
    Property 8 9 false "init" false false; (* 10: a: p *)
    SpreadElement 9;                      (* 11: not an entry of a pattern *)
    ObjectPattern [10; 11]                (* 12 *) ].

(** [a.#x], root at 2. *)
Definition tree_private : list node :=
  [ Identifier "a"; PrivateIdentifier "x";
    MemberExpression 0 1 false false ].

(** ** Reasoning about computations *)

Lemma bind_inv {A B} (c : M A) (k : A -> M B) m r m' :
  bind c k m = (r, m') ->
  (exists x, c m = (Abort x, m') /\ r = Abort x)
  \/ (exists a m1, c m = (Ok a, m1) /\ k a m1 = (r, m')).
Proof.
  unfold bind. destruct (c m) as [[a|x] m1]; intros H.
  - right. eauto.
  - left. exists x. by simplify_eq.
Qed.

Lemma bind_Ok_inv {A B} (c : M A) (k : A -> M B) m b m' :
  bind c k m = (Ok b, m') ->
  exists a m1, c m = (Ok a, m1) /\ k a m1 = (Ok b, m').
Proof.
  intros [(x & _ & ?)|?]%bind_inv; [done|done].
Qed.

Lemma bind_Ok {A B} (c : M A) (k : A -> M B) m a m1 :
  c m = (Ok a, m1) -> bind c k m = k a m1.
Proof. unfold bind. by intros ->. Qed.

Lemma bind_Abort {A B} (c : M A) (k : A -> M B) m x m1 :
  c m = (Abort x, m1) -> bind c k m = (Abort x, m1).
Proof. unfold bind. by intros ->. Qed.

Lemma deref_Ok_inv l m n m' :
  deref l m = (Ok n, m') -> objs m !! l = Some n /\ m' = m.
Proof. unfold deref. destruct (objs m !! l); naive_solver. Qed.

Lemma deref_Ok l m n : objs m !! l = Some n -> deref l m = (Ok n, m).
Proof. unfold deref. by intros ->. Qed.

Lemma ok_Ok_inv {dev} cond m m' :
  ok dev cond m = (Ok tt, m') -> (dev = true -> cond = true) /\ m' = m.
Proof. destruct dev, cond; cbv; naive_solver. Qed.

(** *** The store only grows *)

Lemma extends_ret {A} (a : A) : extends (ret a).
Proof. by intros m. Qed.

Lemma extends_throw {A} e : extends (@throw A e).
Proof. by intros m. Qed.

Lemma extends_out_of_fuel {A} : extends (@out_of_fuel A).
Proof. by intros m. Qed.

Lemma extends_bind {A B} (c : M A) (k : A -> M B) :
  extends c -> (forall a, extends (k a)) -> extends (bind c k).
Proof.
  intros Hc Hk m. unfold bind. specialize (Hc m).
  destruct (c m) as [[a|x] m1]; simpl in *; [|done].
  etrans; [exact Hc|apply Hk].
Qed.

Lemma extends_deref l : extends (deref l).
Proof. intros m. unfold deref. by destruct (objs m !! l). Qed.

Lemma extends_alloc n : extends (alloc n).
Proof. intros m. simpl. by apply prefix_app_r. Qed.

Lemma extends_push name : extends (push name).
Proof. by intros m. Qed.

Lemma extends_includes name : extends (includes name).
Proof. by intros m. Qed.

Lemma extends_scope_length : extends scope_length.
Proof. by intros m. Qed.

Lemma extends_splice k : extends (splice k).
Proof. by intros m. Qed.

Lemma extends_test cond err : extends (test cond err).
Proof. destruct cond; [apply extends_ret|apply extends_throw]. Qed.

Lemma extends_ok {dev} cond : extends (ok dev cond).
Proof. destruct dev, cond; first [apply extends_ret|apply extends_throw]. Qed.

Lemma extends_for_of {A} (xs : list A) (body : A -> M unit) :
  (forall x, extends (body x)) -> extends (for_of xs body).
Proof.
  intros Hb. induction xs as [|x xs IH]; simpl.
  - apply extends_ret.
  - by apply extends_bind.
Qed.

Lemma extends_walk_children w cs :
  (forall l, extends (w l)) -> extends (walk_children w cs).
Proof.
  intros Hw. induction cs as [|[c|] cs IH]; simpl.
  - apply extends_ret.
  - apply extends_bind; [done|]. intros c'.
    apply extends_bind; [done|]. intros cs'. apply extends_ret.
  - apply extends_bind; [done|]. intros cs'. apply extends_ret.
Qed.

Lemma extends_ENTER cfg n : extends (ENTER cfg n).
Proof.
  destruct n; simpl;
    first [apply extends_ret | apply extends_test | apply extends_throw].
Qed.

Create HintDb extends discriminated.
#[local] Hint Resolve extends_ret extends_throw extends_out_of_fuel
  extends_deref extends_alloc extends_push extends_includes
  extends_scope_length extends_splice extends_test extends_ok
  extends_ENTER : extends.

(** Closes an [extends] goal by the shape of the computation. *)
Ltac extends_step :=
  match goal with
  | |- extends (bind _ _) => apply extends_bind; [|intros ?]
  | |- extends (for_of _ _) => apply extends_for_of; intros ?
  | |- extends (walk_children _ _) => apply extends_walk_children; intros ?
  | |- extends (descend _ _ _) => unfold descend
  | |- extends (if ?b then _ else _) => destruct b
  | |- extends (match ?x with _ => _ end) => destruct x
  | |- extends _ => solve [eauto with extends]
  end.

Lemma extends_extractDeclaration fuel pattern :
  extends (extractDeclaration fuel pattern).
Proof.
  revert pattern. induction fuel as [|fuel IH]; intros pattern; simpl.
  - apply extends_out_of_fuel.
  - repeat extends_step.
Qed.

Lemma extends_walk {dev} global cfg fuel n : extends (walk dev global cfg fuel n).
Proof.
  revert n. induction fuel as [|fuel IH]; intros n; simpl.
  - apply extends_out_of_fuel.
  - pose proof (extends_extractDeclaration fuel).
    apply extends_bind; [apply extends_deref|]. intros node.
    apply extends_bind; [apply extends_ENTER|]. intros _.
    destruct node; repeat extends_step.
Qed.

Lemma extends_check_params isIdent params : extends (check_params isIdent params).
Proof. induction params; simpl; repeat extends_step. Qed.

(** *** The recursion bound *)

Lemma agrees_refl {A} (c : M A) : agrees c c.
Proof. by intros m r m' ? _. Qed.

Lemma agrees_out_of_fuel {A} (c : M A) : agrees out_of_fuel c.
Proof. intros m r m' Hrun Hr. injection Hrun as <- <-. done. Qed.

Lemma agrees_bind {A B} (c c' : M A) (k k' : A -> M B) :
  agrees c c' -> (forall a, agrees (k a) (k' a)) ->
  agrees (bind c k) (bind c' k').
Proof.
  intros Hc Hk m r m' Hrun Hr.
  apply bind_inv in Hrun as [(x & Hrun & ->)|(a & m1 & Hrun & Hrest)].
  - apply bind_Abort. apply Hc; [done|]. intros [= ->]. by apply Hr.
  - rewrite (bind_Ok c' k' m a m1) by (by apply Hc). by apply Hk.
Qed.

Lemma agrees_for_of {A} (xs : list A) (body body' : A -> M unit) :
  (forall x, agrees (body x) (body' x)) ->
  agrees (for_of xs body) (for_of xs body').
Proof.
  intros Hb. induction xs as [|x xs IH]; cbn [for_of].
  - apply agrees_refl.
  - by apply agrees_bind.
Qed.

Lemma agrees_walk_children (w w' : nat -> M nat) cs :
  (forall l, agrees (w l) (w' l)) ->
  agrees (walk_children w cs) (walk_children w' cs).
Proof.
  intros Hw. induction cs as [|[c|] cs IH]; cbn [walk_children].
  - apply agrees_refl.
  - apply agrees_bind; [done|]. intros c'.
    apply agrees_bind; [done|]. intros cs'. apply agrees_refl.
  - apply agrees_bind; [done|]. intros cs'. apply agrees_refl.
Qed.

Ltac agrees_step :=
  match goal with
  | |- agrees (bind _ _) (bind _ _) => apply agrees_bind; [|intros ?]
  | |- agrees (for_of _ _) (for_of _ _) => apply agrees_for_of; intros ?
  | |- agrees (descend _ _ _) (descend _ _ _) => unfold descend
  | |- agrees (walk_children _ _) (walk_children _ _) =>
      apply agrees_walk_children; intros ?
  | |- agrees (if ?b then _ else _) (if ?b then _ else _) => destruct b
  | |- agrees (match ?x with _ => _ end) (match ?x with _ => _ end) =>
      destruct x
  | |- agrees ?c ?c => apply agrees_refl
  | |- agrees _ _ => solve [eauto]
  end.

(** More fuel never changes an outcome of the scanner... *)
Lemma extractDeclaration_fuel fuel fuel' pattern :
  fuel <= fuel' ->
  agrees (extractDeclaration fuel pattern) (extractDeclaration fuel' pattern).
Proof.
  revert fuel' pattern.
  induction fuel as [|fuel IH]; intros fuel' pattern Hle;
    [apply agrees_out_of_fuel|].
  destruct fuel' as [|fuel']; [lia|]. cbn [extractDeclaration].
  assert (forall p, agrees (extractDeclaration fuel p)
                      (extractDeclaration fuel' p)) as IH'
    by (intros p; apply IH; lia).
  repeat agrees_step.
Qed.

(** ... nor of the walker. *)
Lemma walk_fuel {dev} global cfg fuel fuel' n :
  fuel <= fuel' ->
  agrees (walk dev global cfg fuel n) (walk dev global cfg fuel' n).
Proof.
  revert fuel' n.
  induction fuel as [|fuel IH]; intros fuel' n Hle;
    [apply agrees_out_of_fuel|].
  destruct fuel' as [|fuel']; [lia|]. cbn [walk].
  assert (forall l, agrees (walk dev global cfg fuel l)
                      (walk dev global cfg fuel' l)) as IH'
    by (intros l; apply IH; lia).
  assert (forall p, agrees (extractDeclaration fuel p)
                      (extractDeclaration fuel' p)) as Hscan
    by (intros p; apply extractDeclaration_fuel; lia).
  apply agrees_bind; [apply agrees_refl|]. intros node.
  apply agrees_bind; [apply agrees_refl|]. intros _.
  destruct node; repeat agrees_step.
Qed.

(** *** The binding scanner against the names a pattern binds *)

Lemma scans_ret h sc : scans (ret tt) h sc (Some []).
Proof. unfold scans, ret. by rewrite app_nil_r. Qed.

Lemma scans_for_of {A} (xs : list A) (body : A -> M unit)
    (names : A -> option (list string)) h :
  (forall x sc, scans (body x) h sc (names x)) ->
  forall sc, scans (for_of xs body) h sc (collect names xs).
Proof.
  intros Hb. induction xs as [|x xs IH]; intros sc; simpl.
  - apply scans_ret.
  - specialize (Hb x sc). unfold scans in *.
    destruct (names x) as [a|].
    + rewrite (bind_Ok _ _ _ _ _ Hb). specialize (IH (sc ++ a)%list).
      destruct (collect names xs) as [b|].
      * by rewrite IH, (assoc_L (++)%list).
      * done.
    + destruct Hb as (e & m' & Hb). exists e, m'.
      by rewrite (bind_Abort _ _ _ _ _ Hb).
Qed.

Lemma scans_extractDeclaration fuel h pattern sc :
  scans (extractDeclaration fuel pattern) h sc (bound_names fuel h pattern).
Proof.
  revert pattern sc. induction fuel as [|fuel IH]; intros pattern sc.
  - simpl. eexists _, _. reflexivity.
  - cbn [extractDeclaration bound_names].
    destruct (h !! pattern) as [pat|] eqn:Hpat.
    2:{ eexists _, _. unfold bind, deref. cbn. by rewrite Hpat. }
    assert (forall k names,
      scans (k pat) h sc names ->
      scans (pat' <- deref pattern ;; k pat') h sc names) as Hstep.
    { intros k names Hk. unfold scans in *.
      by rewrite (bind_Ok _ _ _ _ _ (deref_Ok pattern (Mem h sc) pat Hpat)). }
    apply Hstep. clear Hstep.
    destruct pat; try (eexists _, _; reflexivity); try apply IH.
    + reflexivity.
    + apply scans_for_of. intros p sc'.
      destruct (h !! p) as [prop|] eqn:Hp.
      2:{ eexists _, _. unfold bind, deref. cbn. by rewrite Hp. }
      unfold scans.
      rewrite (bind_Ok _ _ _ _ _ (deref_Ok p (Mem h sc') prop Hp)).
      destruct prop; try (eexists _, _; reflexivity); apply IH.
    + apply scans_for_of. intros [e|] sc'; [apply IH|apply scans_ret].
Qed.

Lemma extractDeclaration_Ok_inv fuel pattern m m' :
  extractDeclaration fuel pattern m = (Ok tt, m') ->
  exists names, bound_names fuel (objs m) pattern = Some names
                /\ m' = Mem (objs m) (scope m ++ names)%list.
Proof.
  destruct m as [h sc]. intros Hrun.
  pose proof (scans_extractDeclaration fuel h pattern sc) as Hs.
  unfold scans in Hs. simpl. destruct (bound_names fuel h pattern) as [ns|].
  - exists ns. split; [done|congruence].
  - destruct Hs as (? & ? & ?). congruence.
Qed.

Lemma for_of_extractDeclaration_Ok_inv fuel params m m' :
  for_of params (extractDeclaration fuel) m = (Ok tt, m') ->
  exists names, collect (bound_names fuel (objs m)) params = Some names
                /\ m' = Mem (objs m) (scope m ++ names)%list.
Proof.
  destruct m as [h sc]. intros Hrun.
  pose proof (scans_for_of params (extractDeclaration fuel)
                (bound_names fuel h) h
                (fun x sc' => scans_extractDeclaration fuel h x sc') sc) as Hs.
  unfold scans in Hs. simpl.
  destruct (collect (bound_names fuel h) params) as [ns|].
  - exists ns. split; [done|congruence].
  - destruct Hs as (? & ? & ?). congruence.
Qed.

(** More fuel and a larger store bind the same names. *)
Lemma collect_mono {A} (f g : A -> option (list string)) xs names :
  (forall x a, f x = Some a -> g x = Some a) ->
  collect f xs = Some names -> collect g xs = Some names.
Proof.
  intros Hfg. revert names. induction xs as [|x xs IH]; intros names; simpl.
  - done.
  - destruct (f x) as [a|] eqn:Hfx; [|done].
    destruct (collect f xs) as [b|]; [|done].
    intros ?. by rewrite (Hfg _ _ Hfx), (IH b).
Qed.

Lemma bound_names_mono fuel fuel' h h' pattern names :
  fuel <= fuel' -> h `prefix_of` h' ->
  bound_names fuel h pattern = Some names ->
  bound_names fuel' h' pattern = Some names.
Proof.
  intros Hfuel Hh. revert fuel' Hfuel pattern names.
  induction fuel as [|fuel IH]; intros fuel' Hfuel pattern names; [done|].
  destruct fuel' as [|fuel']; [lia|]. cbn [bound_names].
  destruct (h !! pattern) as [pat|] eqn:Hpat; [|done].
  rewrite (prefix_lookup_Some _ _ _ _ Hpat Hh).
  assert (fuel <= fuel') as Hle by lia.
  destruct pat; try done; try (by apply IH).
  - apply collect_mono. intros p a.
    destruct (h !! p) as [prop|] eqn:Hp; [|done].
    rewrite (prefix_lookup_Some _ _ _ _ Hp Hh).
    destruct prop; try done; by apply IH.
  - apply collect_mono. intros [e|] a; [by apply IH|done].
Qed.

(** *** The hook against the policy table *)

Lemma operator_policy cfg op :
  (enableUpdate cfg || bool_decide (op ≠ "delete"))
  && (enableInspect cfg
      || (bool_decide (op ≠ "typeof") && bool_decide (op ≠ "in")
          && bool_decide (op ≠ "instanceof")))
  = negb (bool_decide (op = "delete") && negb (enableUpdate cfg))
    && negb (bool_decide (op ∈ ["typeof"; "in"; "instanceof"])
             && negb (enableInspect cfg)).
Proof.
  assert (bool_decide (op ∈ ["typeof"; "in"; "instanceof"])
          = negb (bool_decide (op ≠ "typeof") && bool_decide (op ≠ "in")
                  && bool_decide (op ≠ "instanceof"))) as ->.
  { rewrite !bool_decide_not, <- !negb_orb, negb_involutive.
    rewrite <- !bool_decide_or. apply bool_decide_ext.
    rewrite !elem_of_cons, elem_of_nil. tauto. }
  assert (bool_decide (op = "delete") = negb (bool_decide (op ≠ "delete")))
    as -> by (repeat case_bool_decide; done).
  by destruct (enableUpdate cfg), (enableInspect cfg),
     (bool_decide (op ≠ "delete")), (bool_decide (op ≠ "typeof")),
     (bool_decide (op ≠ "in")), (bool_decide (op ≠ "instanceof")).
Qed.

Lemma ENTER_cases cfg n m :
  (admitted cfg n = true /\ ENTER cfg n m = (Ok tt, m))
  \/ (admitted cfg n = false
      /\ exists msg, ENTER cfg n m = (Abort (Throw (SyntaxError msg)), m)).
Proof.
  destruct n; cbn [ENTER admitted]; rewrite ?operator_policy;
    try (left; done); try (right; eauto; done);
    match goal with |- context [test ?b _] => destruct b end;
    (left; done) || (right; eauto).
Qed.

Lemma ENTER_admitted cfg n m :
  admitted cfg n = true -> ENTER cfg n m = (Ok tt, m).
Proof. destruct (ENTER_cases cfg n m) as [[? ?]|[? ?]]; congruence. Qed.

Lemma ENTER_Ok_inv cfg n m m' :
  ENTER cfg n m = (Ok tt, m') -> admitted cfg n = true /\ m' = m.
Proof.
  destruct (ENTER_cases cfg n m) as [[? ?]|[? [? ?]]]; split; congruence.
Qed.

Lemma ENTER_refused cfg n m :
  admitted cfg n = false ->
  exists msg, ENTER cfg n m = (Abort (Throw (SyntaxError msg)), m).
Proof. destruct (ENTER_cases cfg n m) as [[? ?]|[? ?]]; [congruence|done]. Qed.

(** An admitted node is none of the kinds the handlers look for by name. *)
Lemma admitted_node_type cfg n :
  admitted cfg n = true ->
  node_type n ≠ "BlockStatement" /\ node_type n ≠ "Super"
  /\ node_type n ≠ "PrivateIdentifier".
Proof. destruct n; simpl; try done. Qed.

(** *** The scope is restored *)

Lemma restores_ret {A} (a : A) : restores (ret a).
Proof. intros m ? m' [= _ <-]. done. Qed.

Lemma restores_throw {A} e : restores (@throw A e).
Proof. intros m ? m' [=]. Qed.

Lemma restores_out_of_fuel {A} : restores (@out_of_fuel A).
Proof. intros m ? m' [=]. Qed.

Lemma restores_bind {A B} (c : M A) (k : A -> M B) :
  restores c -> (forall a, restores (k a)) -> restores (bind c k).
Proof.
  intros Hc Hk m b m' (a & m1 & H1 & H2)%bind_Ok_inv.
  rewrite (Hk _ _ _ _ H2). eauto.
Qed.

Lemma restores_deref l : restores (deref l).
Proof. intros m n m' [_ ->]%deref_Ok_inv. done. Qed.

Lemma restores_alloc n : restores (alloc n).
Proof. intros m ? m' [= _ <-]. done. Qed.

Lemma restores_includes name : restores (includes name).
Proof. intros m ? m' [= _ <-]. done. Qed.

Lemma restores_test cond err : restores (test cond err).
Proof. destruct cond; [apply restores_ret|apply restores_throw]. Qed.

Lemma restores_ok {dev} cond : restores (ok dev cond).
Proof. destruct dev, cond; first [apply restores_ret|apply restores_throw]. Qed.

Lemma restores_ENTER cfg n : restores (ENTER cfg n).
Proof.
  destruct n; simpl;
    first [apply restores_ret | apply restores_test | apply restores_throw].
Qed.

Lemma restores_walk_children w cs :
  (forall l, restores (w l)) -> restores (walk_children w cs).
Proof.
  intros Hw. induction cs as [|[c|] cs IH]; simpl.
  - apply restores_ret.
  - apply restores_bind; [done|]. intros c'.
    apply restores_bind; [done|]. intros cs'. apply restores_ret.
  - apply restores_bind; [done|]. intros cs'. apply restores_ret.
Qed.

(** The push, walk, splice sequence of the arrow function handler: what
    the parameters pushed is cut off again, whatever the body's walk
    returned. *)
Lemma restores_push_walk_splice {A B} fuel params (w : M A) (k : A -> M B) :
  restores w -> (forall a, restores (k a)) ->
  restores (length <- scope_length ;;
            for_of params (extractDeclaration fuel) ;;
            body' <- w ;;
            splice length ;;
            k body').
Proof.
  intros Hw Hk m b m' Hrun.
  apply bind_Ok_inv in Hrun as (len & m1 & [= <- <-] & Hrun).
  apply bind_Ok_inv in Hrun as ([] & m2 & Hscan & Hrun).
  apply for_of_extractDeclaration_Ok_inv in Hscan as (names & _ & ->).
  apply bind_Ok_inv in Hrun as (body' & m3 & Hbody & Hrun).
  apply Hw in Hbody. simpl in Hbody.
  apply bind_Ok_inv in Hrun as ([] & m4 & [= <-] & Hrun).
  apply Hk in Hrun. rewrite Hrun. simpl.
  by rewrite Hbody, take_app_length.
Qed.

Create HintDb restores discriminated.
#[local] Hint Resolve restores_ret restores_throw restores_out_of_fuel
  restores_deref restores_alloc restores_includes restores_test restores_ok
  restores_ENTER : restores.

Ltac restores_step :=
  match goal with
  | |- restores (bind scope_length _) =>
      apply restores_push_walk_splice; [|intros ?]
  | |- restores (bind _ _) => apply restores_bind; [|intros ?]
  | |- restores (walk_children _ _) => apply restores_walk_children; intros ?
  | |- restores (descend _ _ _) => unfold descend
  | |- restores (if ?b then _ else _) => destruct b
  | |- restores (match ?x with _ => _ end) => destruct x
  | |- restores _ => solve [eauto with restores]
  end.

Lemma restores_walk {dev} global cfg fuel n : restores (walk dev global cfg fuel n).
Proof.
  revert n. induction fuel as [|fuel IH]; intros n; simpl.
  - apply restores_out_of_fuel.
  - apply restores_bind; [apply restores_deref|]. intros node.
    apply restores_bind; [apply restores_ENTER|]. intros _.
    destruct node; repeat restores_step.
Qed.

(** *** Certified trees *)

Lemma extends_run {A} (c : M A) m r m' :
  extends c -> c m = (r, m') -> objs m `prefix_of` objs m'.
Proof. intros Hc Hrun. specialize (Hc m). by rewrite Hrun in Hc. Qed.

Lemma all_children_mono (p q : loc -> bool) cs :
  (forall c, p c = true -> q c = true) ->
  all_children p cs = true -> all_children q cs = true.
Proof.
  intros Hpq. unfold all_children. rewrite !forallb_forall.
  intros Hp [c|] Hin; [|done]. apply Hpq, (Hp (Some c) Hin).
Qed.

Lemma plain_name_mono {dev} h h' l :
  h `prefix_of` h' -> plain_name dev h l = true -> plain_name dev h' l = true.
Proof.
  intros Hh. unfold plain_name.
  destruct (h !! l) as [n|] eqn:Hl; [|done].
  by rewrite (prefix_lookup_Some _ _ _ _ Hl Hh).
Qed.

Lemma plain_name_inv {dev} h l :
  plain_name dev h l = true ->
  exists n, h !! l = Some n
            /\ (dev = true -> node_type n ≠ "PrivateIdentifier").
Proof.
  unfold plain_name. destruct (h !! l) as [n|]; [|done].
  intros Hn. exists n. split; [done|]. intros ->.
  by apply bool_decide_eq_true in Hn.
Qed.

Lemma this_access_mono h h' object property :
  h `prefix_of` h' ->
  this_access h object property = true ->
  this_access h' object property = true.
Proof.
  intros Hh. unfold this_access.
  destruct (h !! object) as [o|] eqn:Ho; [|done].
  rewrite (prefix_lookup_Some _ _ _ _ Ho Hh).
  destruct (h !! property) as [p|] eqn:Hp; [|by destruct o].
  by rewrite (prefix_lookup_Some _ _ _ _ Hp Hh).
Qed.

Lemma certified_inv {dev} {synth} fuel cfg h sc l :
  certified dev synth fuel cfg h sc l = true ->
  exists n, h !! l = Some n /\ admitted cfg n = true.
Proof.
  destruct fuel as [|fuel]; [done|]. cbn [certified].
  destruct (h !! l) as [n|]; [|done].
  intros [? _]%andb_prop. eauto.
Qed.

Lemma certified_Identifier {dev} {synth} fuel cfg h sc l name :
  h !! l = Some (Identifier name) -> name ∈ sc ->
  certified dev synth (S fuel) cfg h sc l = true.
Proof. intros Hl Hin. cbn [certified]. rewrite Hl. by apply bool_decide_eq_true. Qed.

Lemma certified_MemberExpression {dev synth} fuel cfg h sc l object property computed optional :
  h !! l = Some (MemberExpression object property computed optional) ->
  certified dev synth fuel cfg h sc object = true ->
  (if computed then certified dev synth fuel cfg h sc property
   else plain_name dev h property) = true ->
  certified dev synth (S fuel) cfg h sc l = true.
Proof.
  intros Hl Ho Hp. cbn [certified]. rewrite Hl, Ho, Hp. cbn [admitted andb].
  by destruct (_ && _).
Qed.

Lemma certified_Property {dev synth} fuel cfg h sc l key value computed kind method shorthand :
  h !! l = Some (Property key value computed kind method shorthand) ->
  (if computed then certified dev synth fuel cfg h sc key else plain_name dev h key) = true ->
  certified dev synth fuel cfg h sc value = true ->
  certified dev synth (S fuel) cfg h sc l = true.
Proof. intros Hl Hk Hv. cbn [certified]. by rewrite Hl, Hk, Hv. Qed.

Lemma certified_ArrowFunctionExpression {dev} {synth} fuel cfg h sc l params body async names :
  h !! l = Some (ArrowFunctionExpression params body async) ->
  enableArrow cfg = true ->
  collect (bound_names fuel h) params = Some names ->
  certified dev synth fuel cfg h (sc ++ names)%list body = true ->
  certified dev synth (S fuel) cfg h sc l = true.
Proof.
  intros Hl Harrow Hnames Hbody. cbn [certified].
  by rewrite Hl, Hnames, Hbody, andb_true_r.
Qed.

(** More fuel and a larger store keep a tree certified. *)
Lemma certified_mono {dev} {synth} cfg fuel fuel' h h' sc l :
  fuel <= fuel' -> h `prefix_of` h' ->
  certified dev synth fuel cfg h sc l = true -> certified dev synth fuel' cfg h' sc l = true.
Proof.
  intros Hfuel Hh. revert fuel' Hfuel sc l.
  induction fuel as [|fuel IH]; intros fuel' Hfuel sc l; [done|].
  destruct fuel' as [|fuel']; [lia|]. cbn [certified].
  destruct (h !! l) as [n|] eqn:Hl; [|done].
  rewrite (prefix_lookup_Some _ _ _ _ Hl Hh).
  assert (fuel <= fuel') as Hle by lia.
  intros [Hadm Hsub]%andb_prop. rewrite Hadm. cbn [andb].
  destruct n;
    try (eapply all_children_mono; [|exact Hsub]; intros c; by apply IH).
  - done.
  - destruct (synth && negb computed) eqn:Hsynth; cbn [andb] in *.
    + destruct (this_access h object property) eqn:Hthis.
      * by rewrite (this_access_mono _ _ _ _ Hh Hthis).
      * destruct (this_access h' object property); [done|].
        apply andb_prop in Hsub as [Ho Hp].
        rewrite (IH _ Hle _ _ Ho). cbn [andb].
        destruct computed; [by apply IH|by eapply plain_name_mono].
    + apply andb_prop in Hsub as [Ho Hp].
      rewrite (IH _ Hle _ _ Ho). cbn [andb].
      destruct computed; [by apply IH|by eapply plain_name_mono].
  - destruct (collect (bound_names fuel h) params) as [names|] eqn:Hc; [|done].
    erewrite collect_mono; [by apply IH| |exact Hc].
    intros p a. by apply bound_names_mono.
  - apply andb_prop in Hsub as [Hk Hv].
    rewrite (IH _ Hle _ _ Hv), andb_true_r.
    destruct computed; [by apply IH|by eapply plain_name_mono].
Qed.

(** *** Child positions *)

Lemma shape_nil cs : shape cs = [] -> cs = [].
Proof. by destruct cs. Qed.

Lemma shape_present cs (ls : list loc) :
  shape cs = shape (Some <$> ls) -> Some <$> present cs = cs.
Proof.
  revert ls. induction cs as [|[c|] cs IH]; intros [|l ls]; try done.
  intros [= Hs]. cbn. f_equal. by eapply IH.
Qed.

Lemma present_Some (ls : list loc) : present (Some <$> ls) = ls.
Proof. induction ls; [done|]. cbn. by f_equal. Qed.

Lemma children_with_children n cs :
  shape cs = shape (children n) -> children (with_children n cs) = cs.
Proof.
  destruct n; cbn [children]; intros Hs;
    try (apply shape_nil in Hs as ->; done);
    try (by destruct cs as [|[?|] [|[?|] [|[?|] [|]]]]);
    try (cbn; by eapply shape_present).
  - cbn. rewrite <- (shape_present _ _ Hs) at 3.
    rewrite <- (take_drop (length quasis) cs) at 3.
    unfold present. by rewrite omap_app.
  - destruct cs as [|[c|] cs]; try done. injection Hs as Hs.
    cbn. f_equal. by eapply shape_present.
  - destruct cs as [|[c|] cs]; try done. injection Hs as Hs.
    cbn. f_equal. by eapply shape_present.
Qed.

Lemma admitted_with_children cfg n cs :
  admitted cfg (with_children n cs) = admitted cfg n.
Proof.
  destruct n; try done;
    by destruct cs as [|[?|] [|[?|] [|[?|] [|]]]].
Qed.

Lemma handled_with_children n cs : handled (with_children n cs) = handled n.
Proof.
  destruct n; try done;
    by destruct cs as [|[?|] [|[?|] [|[?|] [|]]]].
Qed.

Lemma certified_descend {dev} {synth} fuel cfg h sc l n :
  h !! l = Some n -> handled n = false ->
  certified dev synth (S fuel) cfg h sc l
  = admitted cfg n && all_children (certified dev synth fuel cfg h sc) (children n).
Proof. intros Hl Hn. cbn [certified]. rewrite Hl. by destruct n. Qed.

Lemma walk_children_shape w cs m cs' m' :
  walk_children w cs m = (Ok cs', m') -> shape cs' = shape cs.
Proof.
  revert m cs' m'.
  induction cs as [|[c|] cs IH]; intros m cs' m'; cbn [walk_children].
  - by intros [= <- _].
  - intros (c' & m1 & ? & Hrun)%bind_Ok_inv.
    apply bind_Ok_inv in Hrun as (cs'' & m2 & Hrun & [= <- _]).
    cbn. f_equal. by eapply IH.
  - intros (cs'' & m2 & Hrun & [= <- _])%bind_Ok_inv.
    cbn. f_equal. by eapply IH.
Qed.

(** *** Walking a certified tree *)

Lemma ok_true {dev} m : ok dev true m = (Ok tt, m).
Proof. by destruct dev. Qed.

Lemma ok_pass {dev} cond m :
  (dev = true -> cond = true) -> ok dev cond m = (Ok tt, m).
Proof. destruct dev; intros H; [by rewrite H|done]. Qed.

Lemma walk_children_certified {dev} {synth} (w : loc -> M loc) fuel cfg h sc cs :
  (forall l, certified dev synth fuel cfg h sc l = true ->
             w l (Mem h sc) = (Ok l, Mem h sc)) ->
  all_children (certified dev synth fuel cfg h sc) cs = true ->
  walk_children w cs (Mem h sc) = (Ok cs, Mem h sc).
Proof.
  intros Hw. induction cs as [|[c|] cs IH]; cbn [walk_children all_children forallb].
  - done.
  - intros [Hc Hcs]%andb_prop.
    rewrite (bind_Ok _ _ _ _ _ (Hw _ Hc)).
    by rewrite (bind_Ok _ _ _ _ _ (IH Hcs)).
  - intros Hcs. by rewrite (bind_Ok _ _ _ _ _ (IH Hcs)).
Qed.

(** The walker returns a certified tree as the reference it was given, and
    leaves store and scope as they were. *)
Lemma walk_certified_id {dev} global cfg fuel h sc l :
  certified dev false fuel cfg h sc l = true ->
  walk dev global cfg fuel l (Mem h sc) = (Ok l, Mem h sc).
Proof.
  revert sc l. induction fuel as [|fuel IH]; intros sc l; [done|].
  cbn [certified walk].
  destruct (h !! l) as [n|] eqn:Hl; [|done].
  intros [Hadm Hsub]%andb_prop.
  rewrite (bind_Ok _ _ _ _ _ (deref_Ok l (Mem h sc) n Hl)).
  rewrite (bind_Ok _ _ _ _ _ (ENTER_admitted cfg n (Mem h sc) Hadm)).
  destruct n;
    try (unfold descend;
         rewrite (bind_Ok _ _ _ _ _
                    (walk_children_certified _ fuel cfg h sc _ (IH sc) Hsub));
         by rewrite bool_decide_eq_true_2).
  - (* Identifier *)
    unfold bind, includes. cbn [scope]. by rewrite Hsub.
  - (* MemberExpression *)
    cbn [andb] in Hsub. apply andb_prop in Hsub as [Ho Hp].
    destruct (certified_inv _ _ _ _ _ Ho) as (o & Hlo & Hao).
    apply admitted_node_type in Hao as (_ & HSuper & _).
    assert (exists p, h !! property = Some p
                      /\ (dev = true -> node_type p ≠ "PrivateIdentifier"))
      as (p & Hlp & Hpriv).
    { destruct computed; [|by apply plain_name_inv].
      destruct (certified_inv _ _ _ _ _ Hp) as (p & ? & Hap).
      apply admitted_node_type in Hap as (_ & _ & ?). eauto. }
    rewrite (bind_Ok _ _ _ _ _ (deref_Ok object (Mem h sc) o Hlo)).
    rewrite (bind_Ok _ _ _ _ _
               (ok_pass _ _ (fun _ => bool_decide_eq_true_2 _ HSuper))).
    rewrite (bind_Ok _ _ _ _ _ (deref_Ok property (Mem h sc) p Hlp)).
    rewrite (bind_Ok _ _ _ _ _
               (ok_pass _ _ (fun Hd => bool_decide_eq_true_2 _ (Hpriv Hd)))).
    rewrite (bind_Ok _ _ _ _ _ (IH _ _ Ho)).
    assert ((if computed then walk dev global cfg fuel property else ret property)
              (Mem h sc) = (Ok property, Mem h sc)) as Hwp.
    { destruct computed; [by apply IH|done]. }
    rewrite (bind_Ok _ _ _ _ _ Hwp).
    by rewrite bool_decide_eq_true_2.
  - (* ArrowFunctionExpression *)
    destruct (collect (bound_names fuel h) params) as [names|] eqn:Hnames;
      [|done].
    destruct (certified_inv _ _ _ _ _ Hsub) as (b & Hlb & Hab).
    apply admitted_node_type in Hab as (HBlock & _ & _).
    rewrite (bind_Ok _ _ _ _ _ (deref_Ok body (Mem h sc) b Hlb)).
    rewrite (bool_decide_eq_false_2 _ HBlock).
    rewrite (bind_Ok scope_length _ (Mem h sc) _ _ eq_refl).
    pose proof (scans_for_of params (extractDeclaration fuel)
                  (bound_names fuel h) h
                  (fun x sc' => scans_extractDeclaration fuel h x sc') sc)
      as Hscan.
    rewrite Hnames in Hscan. cbn [scope]. unfold scans in Hscan.
    rewrite (bind_Ok _ _ _ _ _ Hscan).
    rewrite (bind_Ok _ _ _ _ _ (IH _ _ Hsub)).
    unfold bind, splice. cbn [objs scope].
    by rewrite take_app_length, bool_decide_eq_true_2.
  - (* Property *)
    apply andb_prop in Hsub as [Hk Hv].
    assert (exists k, h !! key = Some k
                      /\ (dev = true -> node_type k ≠ "PrivateIdentifier"))
      as (k & Hlk & Hpriv).
    { destruct computed; [|by apply plain_name_inv].
      destruct (certified_inv _ _ _ _ _ Hk) as (k & ? & Hak).
      apply admitted_node_type in Hak as (_ & _ & ?). eauto. }
    rewrite (bind_Ok _ _ _ _ _ (deref_Ok key (Mem h sc) k Hlk)).
    rewrite (bind_Ok _ _ _ _ _
               (ok_pass _ _ (fun Hd => bool_decide_eq_true_2 _ (Hpriv Hd)))).
    assert ((if computed then walk dev global cfg fuel key else ret key)
              (Mem h sc) = (Ok key, Mem h sc)) as Hwk.
    { destruct computed; [by apply IH|done]. }
    rewrite (bind_Ok _ _ _ _ _ Hwk).
    rewrite (bind_Ok _ _ _ _ _ (IH _ _ Hv)).
    by rewrite bool_decide_eq_true_2.
Qed.

(** *** What the walker returns is certified *)

Lemma with_children_children n : with_children n (children n) = n.
Proof.
  destruct n; cbn; rewrite ?present_Some; try done.
  by rewrite <- fmap_take, <- fmap_drop, !present_Some,
       take_app_length, drop_app_length.
Qed.

(** The end of every handler: the node itself if nothing below it
    changed, a fresh copy with the new children otherwise.  Either way the
    returned address holds [node']. *)
Lemma reuse_or_alloc_inv (same : bool) n node' m l' m' :
  (same = true -> objs m !! n = Some node') ->
  (if same then ret n else alloc node') m = (Ok l', m') ->
  objs m' !! l' = Some node' /\ objs m `prefix_of` objs m'
  /\ scope m' = scope m.
Proof.
  intros Hsame. destruct same; intros [= <- <-]; cbn.
  - auto.
  - split; [apply list_lookup_middle; done|].
    split; [by apply prefix_app_r|done].
Qed.

Lemma global_bound_app global sc names :
  global_bound global sc -> global_bound global (sc ++ names)%list.
Proof.
  destruct global as [g|]; [|done]. intros [?|?]; [by left|right].
  apply elem_of_app. by left.
Qed.

Section certifies.

Context {dev synth : bool}.
Variable w : loc -> M loc.
Variable fuel : nat.
Variable cfg : enables.
Variable sc : list string.
Hypothesis w_extends : forall c, extends (w c).
Hypothesis w_restores : forall c, restores (w c).
Hypothesis w_certifies : forall c m l' m',
  scope m = sc -> w c m = (Ok l', m') ->
  certified dev synth fuel cfg (objs m') sc l' = true.

Lemma walk_children_certifies cs m cs' m' :
  scope m = sc -> walk_children w cs m = (Ok cs', m') ->
  all_children (certified dev synth fuel cfg (objs m') sc) cs' = true.
Proof.
  revert m cs' m'.
  induction cs as [|[c|] cs IH]; intros m cs' m' Hsc; cbn [walk_children].
  - by intros [= <- _].
  - intros (c' & m1 & Hc & Hrun)%bind_Ok_inv.
    apply bind_Ok_inv in Hrun as (cs'' & m2 & Hcs & [= <- <-]).
    cbn [all_children forallb]. apply andb_true_intro. split.
    + eapply certified_mono; [done| |by eapply w_certifies].
      eapply extends_run; [|exact Hcs]. by apply extends_walk_children.
    + eapply IH; [|exact Hcs]. rewrite <- Hsc. by eapply w_restores.
  - intros (cs'' & m2 & Hcs & [= <- <-])%bind_Ok_inv.
    cbn [all_children forallb]. by eapply IH.
Qed.

Lemma descend_certifies n node m l' m' :
  objs m !! n = Some node -> handled node = false ->
  admitted cfg node = true -> scope m = sc ->
  descend w n node m = (Ok l', m') ->
  certified dev synth (S fuel) cfg (objs m') sc l' = true.
Proof.
  intros Hl Hh Hadm Hsc. unfold descend.
  intros (cs & m1 & Hcs & Hrun)%bind_Ok_inv.
  assert (objs m `prefix_of` objs m1) as Hm1.
  { eapply extends_run; [|exact Hcs]. by apply extends_walk_children. }
  apply reuse_or_alloc_inv in Hrun as (Hl' & Hm' & _).
  2:{ intros ->%bool_decide_eq_true. rewrite with_children_children.
      by eapply prefix_lookup_Some. }
  rewrite (certified_descend _ _ _ _ _ _ Hl'),
    ?admitted_with_children, ?handled_with_children by
    (by rewrite handled_with_children).
  rewrite Hadm. cbn [andb].
  rewrite children_with_children by (by eapply walk_children_shape).
  eapply all_children_mono; [|by eapply walk_children_certifies].
  intros c. by apply certified_mono.
Qed.

End certifies.

(** The three objects of a synthesized property access, in the order
    they are allocated. *)
Lemma lookup_fresh3 (h : list node) a b c :
  let h' := (((h ++ [a]) ++ [b]) ++ [c])%list in
  h' !! length h = Some a /\ h' !! (length h + 1) = Some b
  /\ h' !! (length h + 1 + 1) = Some c.
Proof.
  cbn zeta. rewrite <- !(assoc_L (++)%list). cbn [app].
  split; [by apply list_lookup_middle|].
  split; rewrite lookup_app_r by lia.
  - by replace (length h + 1 - length h) with 1 by lia.
  - by replace (length h + 1 + 1 - length h) with 2 by lia.
Qed.

Lemma walk_certifies {dev} global cfg fuel n m l' m' :
  global_bound global (scope m) ->
  walk dev global cfg fuel n m = (Ok l', m') ->
  certified dev (synthesizes_this global cfg) (S fuel) cfg (objs m') (scope m) l'
  = true.
Proof.
  revert n m l' m'. induction fuel as [|fuel IH]; intros n m l' m' Hg; [done|].
  cbn [walk].
  intros (node & ? & [Hl ->]%deref_Ok_inv & Hrun)%bind_Ok_inv.
  apply bind_Ok_inv in Hrun as ([] & ? & [Hadm ->]%ENTER_Ok_inv & Hrun).
  set (synth := synthesizes_this global cfg) in *.
  assert (forall c m0 l0 m0',
    scope m0 = scope m -> walk dev global cfg fuel c m0 = (Ok l0, m0') ->
    certified dev synth (S fuel) cfg (objs m0') (scope m) l0 = true) as Hcert.
  { intros c m0 l0 m0' Hs Hc. rewrite <- Hs.
    apply (IH c); [by rewrite Hs|done]. }
  destruct node;
    try exact (descend_certifies (walk dev global cfg fuel) (S fuel) cfg (scope m)
                 (extends_walk _ _ _) (restores_walk _ _ _) Hcert
                 n _ m l' m' Hl eq_refl Hadm eq_refl Hrun).
  - (* Identifier *)
    apply bind_Ok_inv in Hrun as (bound & ? & [= <- <-] & Hrun).
    case_bool_decide as Hin.
    + injection Hrun as <- <-. by eapply certified_Identifier.
    + destruct global as [g|]; [|done].
      apply bind_Ok_inv in Hrun as (object & ? & [= <- <-] & Hrun).
      apply bind_Ok_inv in Hrun as (property & ? & [= <- <-] & Hrun).
      injection Hrun as <- <-. cbn [objs scope length].
      set (o := if bool_decide (g = "this") then ThisExpression
                else Identifier g).
      rewrite !length_app. cbn [length].
      match goal with
      | |- context [(((objs m ++ [o]) ++ [?b]) ++ [?c])%list] =>
          destruct (lookup_fresh3 (objs m) o b c) as (Ho & Hp & Hx)
      end.
      cbn [certified]. rewrite Hx. cbn [admitted andb negb].
      unfold this_access, plain_name. rewrite Hp, Ho. cbn [node_type].
      rewrite (bool_decide_eq_true_2 ("Identifier" ≠ "PrivateIdentifier"))
        by done.
      rewrite orb_true_r, !andb_true_r. subst o synth.
      unfold synthesizes_this.
      destruct (decide (g = "this")) as [->|Hne].
      * rewrite !bool_decide_eq_true_2 by done. cbn [andb].
        destruct (enableThis cfg) eqn:Hthis; cbn; [by rewrite Hthis|done].
      * rewrite !bool_decide_eq_false_2 by congruence. cbn.
        destruct Hg as [?|Hg]; [done|].
        by apply bool_decide_eq_true.
  - (* MemberExpression *)
    apply bind_Ok_inv in Hrun as (o & ? & [Hlo ->]%deref_Ok_inv & Hrun).
    apply bind_Ok_inv in Hrun as ([] & ? & [_ ->]%ok_Ok_inv & Hrun).
    apply bind_Ok_inv in Hrun as (p & ? & [Hlp ->]%deref_Ok_inv & Hrun).
    apply bind_Ok_inv in Hrun as ([] & ? & [Hpriv ->]%ok_Ok_inv & Hrun).
    apply bind_Ok_inv in Hrun as (object' & m1 & Hwo & Hrun).
    apply bind_Ok_inv in Hrun as (property' & m2 & Hwp & Hrun).
    pose proof (extends_run _ _ _ _ (extends_walk _ _ _ _) Hwo) as Hm1.
    pose proof (restores_walk _ _ _ _ _ _ _ Hwo) as Hsc1.
    apply IH in Hwo; [|done].
    assert (objs m1 `prefix_of` objs m2
            /\ (if computed
                then certified dev synth (S fuel) cfg (objs m2) (scope m) property'
                else plain_name dev (objs m2) property') = true) as [Hm2 Hp'].
    { destruct computed.
      - split; [by eapply extends_run; [apply (extends_walk (dev:=dev))|]|].
        by eapply Hcert.
      - injection Hwp as <- <-. split; [done|].
        eapply plain_name_mono; [etrans; [exact Hm1|done]|].
        unfold plain_name. rewrite Hlp.
        destruct dev; [by apply Hpriv|done]. }
    apply reuse_or_alloc_inv in Hrun as (Hl' & Hm' & _).
    2:{ intros [-> ->]%bool_decide_eq_true.
        eapply prefix_lookup_Some; [exact Hl|]. by etrans. }
    eapply certified_MemberExpression; [exact Hl'| |].
    + eapply certified_mono; [done| |exact Hwo]. by etrans.
    + destruct computed.
      * by eapply certified_mono.
      * by eapply plain_name_mono.
  - (* ArrowFunctionExpression *)
    apply bind_Ok_inv in Hrun as (b & ? & [Hlb ->]%deref_Ok_inv & Hrun).
    case_bool_decide; [done|].
    apply bind_Ok_inv in Hrun as (len & ? & [= <- <-] & Hrun).
    apply bind_Ok_inv in Hrun as ([] & m1 & Hscan & Hrun).
    apply for_of_extractDeclaration_Ok_inv in Hscan as (names & Hnames & ->).
    apply bind_Ok_inv in Hrun as (body' & m2 & Hwb & Hrun).
    pose proof (extends_run _ _ _ _ (extends_walk _ _ _ _) Hwb) as Hm2.
    apply IH in Hwb; [|by apply global_bound_app].
    apply bind_Ok_inv in Hrun as ([] & ? & [= <-] & Hrun).
    cbn [objs scope] in *.
    apply reuse_or_alloc_inv in Hrun as (Hl' & Hm' & _).
    2:{ intros ->%bool_decide_eq_true. by eapply prefix_lookup_Some. }
    cbn [objs] in *.
    eapply certified_ArrowFunctionExpression; [exact Hl'|exact Hadm| |].
    + eapply collect_mono; [|exact Hnames].
      intros p a. apply bound_names_mono; [lia|by etrans].
    + eapply certified_mono; [|exact Hm'|exact Hwb]. lia.
  - (* Property *)
    apply bind_Ok_inv in Hrun as (k & ? & [Hlk ->]%deref_Ok_inv & Hrun).
    apply bind_Ok_inv in Hrun as ([] & ? & [Hpriv ->]%ok_Ok_inv & Hrun).
    apply bind_Ok_inv in Hrun as (key' & m1 & Hwk & Hrun).
    apply bind_Ok_inv in Hrun as (value' & m2 & Hwv & Hrun).
    assert (objs m `prefix_of` objs m1 /\ scope m1 = scope m
            /\ (if computed
                then certified dev synth (S fuel) cfg (objs m1) (scope m) key'
                else plain_name dev (objs m1) key') = true) as (Hm1 & Hsc1 & Hk').
    { destruct computed.
      - split; [by eapply extends_run; [apply (extends_walk (dev:=dev))|]|].
        split; [by eapply restores_walk|]. by eapply Hcert.
      - injection Hwk as <- <-. split; [done|]. split; [done|].
        unfold plain_name. rewrite Hlk.
        destruct dev; [by apply Hpriv|done]. }
    pose proof (extends_run _ _ _ _ (extends_walk _ _ _ _) Hwv) as Hm2.
    apply IH in Hwv; [|by rewrite Hsc1]. rewrite Hsc1 in Hwv.
    apply reuse_or_alloc_inv in Hrun as (Hl' & Hm' & _).
    2:{ intros [-> ->]%bool_decide_eq_true.
        eapply prefix_lookup_Some; [exact Hl|]. by etrans. }
    eapply certified_Property; [exact Hl'| |].
    + destruct computed.
      * eapply certified_mono; [done| |exact Hk']. by etrans.
      * eapply plain_name_mono; [|exact Hk']. by etrans.
    + by eapply certified_mono.
Qed.

(** *** transform as a whole *)

Lemma check_params_mem isIdent params m :
  (check_params isIdent params m).2 = m.
Proof.
  induction params as [|param rest IH]; cbn [check_params]; [done|].
  destruct (negb (isIdent param)); [done|]. by case_bool_decide.
Qed.

Lemma global_ok_bound global params :
  global_ok global params = true -> global_bound global params.
Proof.
  destruct global as [g|]; [|done]. cbn.
  destruct (decide (g = "this")) as [->|Hne]; [by left|].
  rewrite (bool_decide_eq_true_2 _ Hne). cbn.
  case_bool_decide; [by right|done].
Qed.

(** Past its entry checks, [transform] is the walk of the tree with the
    parameter list as the scope. *)
Lemma transform_walk {dev} isIdent fuel ast params global cfg h :
  check_params isIdent params (Mem h params) = (Ok tt, Mem h params) ->
  global_ok global params = true ->
  transform isIdent dev fuel ast params global cfg h
  = walk dev global cfg fuel ast (Mem h params).
Proof.
  intros Hparams Hg. unfold transform.
  rewrite (bind_Ok _ _ _ _ _ Hparams).
  destruct global as [g|]; [|done]. cbn in Hg.
  by destruct (bool_decide (g ≠ "this") && negb (bool_decide (g ∈ params))).
Qed.

Lemma transform_Ok_inv {dev} isIdent fuel ast params global cfg h T m' :
  transform isIdent dev fuel ast params global cfg h = (Ok T, m') ->
  check_params isIdent params (Mem h params) = (Ok tt, Mem h params)
  /\ global_ok global params = true
  /\ walk dev global cfg fuel ast (Mem h params) = (Ok T, m').
Proof.
  unfold transform. intros ([] & m1 & Hparams & Hrun)%bind_Ok_inv.
  pose proof (check_params_mem isIdent params (Mem h params)) as Hm.
  rewrite Hparams in Hm. cbn in Hm. subst m1.
  split; [done|]. destruct global as [g|]; [|done]. cbn [global_ok].
  by destruct (bool_decide (g ≠ "this") && negb (bool_decide (g ∈ params))).
Qed.

(** The recursion bound only has to be large enough. *)
Lemma transform_fuel {dev} isIdent fuel fuel' ast params global cfg h r m' :
  fuel <= fuel' ->
  transform isIdent dev fuel ast params global cfg h = (r, m') ->
  r <> Abort NoFuel ->
  transform isIdent dev fuel' ast params global cfg h = (r, m').
Proof.
  intros Hle. unfold transform.
  match goal with
  | |- ?c ?m = _ -> _ -> ?c' ?m = _ =>
      assert (agrees c c') as Hagrees; [|exact (Hagrees m r m')]
  end.
  apply agrees_bind; [apply agrees_refl|]. intros _.
  destruct global as [g|]; [|by apply walk_fuel].
  destruct (bool_decide (g ≠ "this") && negb (bool_decide (g ∈ params)));
    [apply agrees_refl|by apply walk_fuel].
Qed.

Lemma extends_transform {dev} isIdent fuel ast params global cfg h :
  h `prefix_of` objs (transform isIdent dev fuel ast params global cfg h).2.
Proof.
  unfold transform.
  match goal with
  | |- _ `prefix_of` objs (?c (Mem h params)).2 =>
      assert (extends c) as Hc; [|exact (Hc (Mem h params))]
  end.
  apply extends_bind; [apply extends_check_params|]. intros _.
  destruct global as [g|]; [|apply extends_walk].
  destruct (bool_decide (g ≠ "this") && negb (bool_decide (g ∈ params)));
    [apply extends_throw|apply extends_walk].
Qed.

(** *** The returned reference is the input's or a new one *)

Lemma reuse_or_alloc_same_or_fresh (same : bool) n node' m0 m l' m' :
  objs m0 `prefix_of` objs m -> (same = true -> m = m0) ->
  (if same then ret n else alloc node') m = (Ok l', m') ->
  (l' = n /\ m' = m0)
  \/ (length (objs m0) <= l' /\ l' < length (objs m')).
Proof.
  intros Hm Hsame. destruct same; intros [= <- <-].
  - left. by rewrite Hsame.
  - right. cbn [objs]. rewrite length_app. cbn [length].
    apply prefix_length in Hm. lia.
Qed.

Lemma same_or_fresh_same (w : loc -> M loc) n m m' :
  same_or_fresh w -> w n m = (Ok n, m') -> m' = m.
Proof. intros Hw Hrun. apply Hw in Hrun as [? [[_ ?]|[? _]]]; [done|lia]. Qed.

Lemma walk_children_same (w : loc -> M loc) cs m m' :
  same_or_fresh w -> walk_children w cs m = (Ok cs, m') -> m' = m.
Proof.
  intros Hw. revert m. induction cs as [|[c|] cs IH]; intros m;
    cbn [walk_children].
  - by intros [= <-].
  - intros (c' & m1 & Hc & Hrun)%bind_Ok_inv.
    apply bind_Ok_inv in Hrun as (cs' & m2 & Hcs & [= -> -> <-]).
    apply (same_or_fresh_same w) in Hc as ->; [|done]. by apply IH.
  - intros (cs' & m2 & Hcs & [= -> <-])%bind_Ok_inv. by apply IH.
Qed.

Lemma same_or_fresh_walk {dev} global cfg fuel :
  same_or_fresh (walk dev global cfg fuel).
Proof.
  induction fuel as [|fuel IH]; intros n m T m'; [done|]. cbn [walk].
  intros (node & ? & [Hl ->]%deref_Ok_inv & Hrun)%bind_Ok_inv.
  apply bind_Ok_inv in Hrun as ([] & ? & [_ ->]%ENTER_Ok_inv & Hrun).
  split; [by eapply lookup_lt_Some|].
  assert (forall c m0 r m1, walk dev global cfg fuel c m0 = (r, m1) ->
            objs m0 `prefix_of` objs m1) as Hext.
  { intros c m0 r m1. apply extends_run, extends_walk. }
  destruct node;
    try (unfold descend in Hrun;
         apply bind_Ok_inv in Hrun as (cs & m1 & Hcs & Hrun);
         eapply reuse_or_alloc_same_or_fresh; [| |exact Hrun];
         [eapply extends_run; [|exact Hcs];
          apply extends_walk_children; intros ?; apply extends_walk
         |intros ->%bool_decide_eq_true;
          by eapply (walk_children_same (walk dev global cfg fuel))]).
  - (* Identifier *)
    apply bind_Ok_inv in Hrun as (bound & ? & [= <- <-] & Hrun).
    destruct (bool_decide (name ∈ scope m)).
    { left. by injection Hrun as <- <-. }
    destruct global as [g|]; [|done].
    apply bind_Ok_inv in Hrun as (object & ? & [= <- <-] & Hrun).
    apply bind_Ok_inv in Hrun as (property & ? & [= <- <-] & Hrun).
    injection Hrun as <- <-. right. cbn [objs].
    rewrite !length_app. cbn [length]. lia.
  - (* MemberExpression *)
    apply bind_Ok_inv in Hrun as (o & ? & [_ ->]%deref_Ok_inv & Hrun).
    apply bind_Ok_inv in Hrun as ([] & ? & [_ ->]%ok_Ok_inv & Hrun).
    apply bind_Ok_inv in Hrun as (p & ? & [_ ->]%deref_Ok_inv & Hrun).
    apply bind_Ok_inv in Hrun as ([] & ? & [_ ->]%ok_Ok_inv & Hrun).
    apply bind_Ok_inv in Hrun as (object' & m1 & Hwo & Hrun).
    apply bind_Ok_inv in Hrun as (property' & m2 & Hwp & Hrun).
    eapply reuse_or_alloc_same_or_fresh; [| |exact Hrun].
    + etrans; [by eapply Hext|].
      destruct computed; [by eapply Hext|by injection Hwp as _ <-].
    + intros [-> ->]%bool_decide_eq_true.
      apply (same_or_fresh_same _ _ _ _ IH) in Hwo as ->.
      destruct computed; [|by injection Hwp as <-].
      by apply (same_or_fresh_same _ _ _ _ IH) in Hwp.
  - (* ArrowFunctionExpression *)
    apply bind_Ok_inv in Hrun as (b & ? & [_ ->]%deref_Ok_inv & Hrun).
    case_bool_decide; [done|].
    apply bind_Ok_inv in Hrun as (len & ? & [= <- <-] & Hrun).
    apply bind_Ok_inv in Hrun as ([] & m1 & Hscan & Hrun).
    apply for_of_extractDeclaration_Ok_inv in Hscan as (names & _ & ->).
    apply bind_Ok_inv in Hrun as (body' & m2 & Hwb & Hrun).
    apply bind_Ok_inv in Hrun as ([] & ? & [= <-] & Hrun).
    eapply reuse_or_alloc_same_or_fresh; [| |exact Hrun].
    + cbn [objs]. by apply Hext in Hwb.
    + intros ->%bool_decide_eq_true.
      apply (same_or_fresh_same _ _ _ _ IH) in Hwb as ->. cbn [objs scope].
      rewrite take_app_length. by destruct m.
  - (* Property *)
    apply bind_Ok_inv in Hrun as (k & ? & [_ ->]%deref_Ok_inv & Hrun).
    apply bind_Ok_inv in Hrun as ([] & ? & [_ ->]%ok_Ok_inv & Hrun).
    apply bind_Ok_inv in Hrun as (key' & m1 & Hwk & Hrun).
    apply bind_Ok_inv in Hrun as (value' & m2 & Hwv & Hrun).
    eapply reuse_or_alloc_same_or_fresh; [| |exact Hrun].
    + etrans; [|by eapply Hext].
      destruct computed; [by eapply Hext|by injection Hwk as _ <-].
    + intros [-> ->]%bool_decide_eq_true.
      apply (same_or_fresh_same _ _ _ _ IH) in Hwv as ->.
      destruct computed; [|by injection Hwk as <-].
      by apply (same_or_fresh_same _ _ _ _ IH) in Hwk.
Qed.

(** *** Positions of a tree *)

Lemma kids_unhandled n : handled n = false -> kids n = children n.
Proof. by destruct n. Qed.

Lemma child_scope_unhandled fuel h sc n :
  handled n = false -> child_scope fuel h sc n = Some sc.
Proof. by destruct n. Qed.

Lemma walked_unhandled n i : handled n = false -> walked n i = true.
Proof. by destruct n. Qed.

Lemma child_scope_mono fuel fuel' h h' sc n sc' :
  fuel <= fuel' -> h `prefix_of` h' ->
  child_scope fuel h sc n = Some sc' -> child_scope fuel' h' sc n = Some sc'.
Proof.
  intros Hfuel Hh. destruct n; try done. cbn [child_scope].
  destruct (collect (bound_names fuel h) params) as [names|] eqn:Hc; [|done].
  intros [= <-]. erewrite collect_mono; [done| |exact Hc].
  intros p a. by apply bound_names_mono.
Qed.

Lemma at_path_mono h h' n path c :
  h `prefix_of` h' -> at_path h n path = Some c -> at_path h' n path = Some c.
Proof.
  intros Hh. revert n. induction path as [|i path IH]; intros n; [done|].
  cbn [at_path]. destruct (h !! n) as [node|] eqn:Hn; [|done].
  rewrite (prefix_lookup_Some _ _ _ _ Hn Hh).
  destruct (kids node !! i) as [[c0|]|]; [|done|done]. apply IH.
Qed.

Lemma locate_mono fuel fuel' h h' sc w n path r :
  fuel <= fuel' -> h `prefix_of` h' ->
  locate fuel h sc w n path = Some r -> locate fuel' h' sc w n path = Some r.
Proof.
  intros Hfuel Hh. revert sc w n.
  induction path as [|i path IH]; intros sc w n; [done|].
  cbn [locate]. destruct (h !! n) as [node|] eqn:Hn; [|done].
  rewrite (prefix_lookup_Some _ _ _ _ Hn Hh).
  destruct (kids node !! i) as [[c0|]|]; [|done|done].
  destruct (child_scope fuel h sc node) as [sc'|] eqn:Hsc; [|done].
  rewrite (child_scope_mono _ _ _ _ _ _ _ Hfuel Hh Hsc). apply IH.
Qed.

(** A position is found where the tree has it; past a step the walker
    does not take, no step counts as taken. *)
Lemma locate_at_path fuel h sc w n path c sc' w' :
  locate fuel h sc w n path = Some (c, sc', w') ->
  at_path h n path = Some c /\ (w = false -> w' = false).
Proof.
  revert sc w n. induction path as [|i path IH]; intros sc w n;
    cbn [locate at_path].
  - by intros [= <- <- <-].
  - destruct (h !! n) as [node|]; [|done].
    destruct (kids node !! i) as [[c0|]|]; [|done|done].
    destruct (child_scope fuel h sc node) as [sc0|]; [|done].
    intros [Hat Hw]%IH. split; [done|]. intros ->. by apply Hw.
Qed.

Lemma locate_cons fuel h sc n node i c sc' path r :
  h !! n = Some node -> kids node !! i = Some (Some c) ->
  child_scope fuel h sc node = Some sc' -> walked node i = true ->
  locate fuel h sc' true c path = Some r ->
  locate fuel h sc true n (i :: path) = Some r.
Proof. intros Hn Hi Hsc Hw Hloc. cbn [locate]. by rewrite Hn, Hi, Hsc, Hw. Qed.

(** Every child of a generic descent is walked, in a store that extends
    the one the descent started in, with the scope the descent started
    with. *)
Lemma walk_children_lookup (w : loc -> M loc) cs m cs' m' i c :
  (forall l, extends (w l)) -> (forall l, restores (w l)) ->
  walk_children w cs m = (Ok cs', m') ->
  cs !! i = Some (Some c) ->
  exists c' m1 m2,
    cs' !! i = Some (Some c') /\ w c m1 = (Ok c', m2)
    /\ objs m `prefix_of` objs m1 /\ scope m1 = scope m
    /\ objs m2 `prefix_of` objs m'.
Proof.
  intros Hext Hres. revert m cs' m' i.
  induction cs as [|[c0|] cs IH]; intros m cs' m' i; cbn [walk_children].
  - by destruct i.
  - intros (c' & m1 & Hc & Hrun)%bind_Ok_inv.
    apply bind_Ok_inv in Hrun as (cs'' & m2 & Hcs & [= <- <-]).
    destruct i as [|i]; cbn.
    + intros [= ->]. exists c', m, m1. repeat split; try done.
      eapply extends_run; [|exact Hcs]. by apply extends_walk_children.
    + intros Hi.
      destruct (IH _ _ _ _ Hcs Hi) as (c2 & ma & mb & ? & ? & Hma & Hsa & ?).
      exists c2, ma, mb. repeat split; try done.
      * etrans; [|exact Hma]. eapply extends_run; [apply Hext|exact Hc].
      * rewrite Hsa. by eapply Hres.
  - intros (cs'' & m2 & Hcs & [= <- <-])%bind_Ok_inv.
    destruct i as [|i]; cbn; [done|]. intros Hi. by eapply IH.
Qed.

(** A child array that comes back changed has a child whose walk
    returned another reference. *)
Lemma walk_children_changed (w : loc -> M loc) cs m cs' m' :
  (forall l, extends (w l)) -> (forall l, restores (w l)) ->
  walk_children w cs m = (Ok cs', m') -> cs' <> cs ->
  exists i c c' m1 m2,
    cs !! i = Some (Some c) /\ w c m1 = (Ok c', m2) /\ c' <> c
    /\ scope m1 = scope m /\ objs m2 `prefix_of` objs m'.
Proof.
  intros Hext Hres. revert m cs' m'.
  induction cs as [|[c0|] cs IH]; intros m cs' m'; cbn [walk_children].
  - by intros [= <- _].
  - intros (c' & m1 & Hc & Hrun)%bind_Ok_inv.
    apply bind_Ok_inv in Hrun as (cs'' & m2 & Hcs & [= <- <-]).
    intros Hne. destruct (decide (c' = c0)) as [->|Hc'].
    + destruct (IH _ _ _ Hcs) as (i & c & c2 & ma & mb & ? & ? & ? & Hsa & ?);
        [congruence|].
      exists (S i), c, c2, ma, mb. repeat split; try done.
      rewrite Hsa. by eapply Hres.
    + exists 0, c0, c', m, m1. repeat split; try done.
      eapply extends_run; [|exact Hcs]. by apply extends_walk_children.
  - intros (cs'' & m2 & Hcs & [= <- <-])%bind_Ok_inv. intros Hne.
    destruct (IH _ _ _ Hcs) as (i & c & c2 & ma & mb & ? & ? & ? & ? & ?);
      [congruence|].
    by exists (S i), c, c2, ma, mb.
Qed.


(** One step down: the node a walk returns has, at every child position,
    what the walk of that child returned if the walker takes the step, and
    the child itself if not. *)
Lemma walk_child {dev} global cfg fuel n m T m' node i c :
  walk dev global cfg (S fuel) n m = (Ok T, m') ->
  objs m !! n = Some node -> kids node !! i = Some (Some c) ->
  exists node' c',
    objs m' !! T = Some node' /\ kids node' !! i = Some (Some c')
    /\ if walked node i
       then exists m1 m2,
              walk dev global cfg fuel c m1 = (Ok c', m2)
              /\ objs m `prefix_of` objs m1
              /\ (forall F sc', child_scope F (objs m) (scope m) node = Some sc'
                                -> scope m1 = sc')
              /\ objs m2 `prefix_of` objs m'
       else c' = c.
Proof.
  intros Hrun Hl Hi. cbn [walk] in Hrun.
  rewrite (bind_Ok _ _ _ _ _ (deref_Ok n m _ Hl)) in Hrun.
  apply bind_Ok_inv in Hrun as ([] & ? & [_ ->]%ENTER_Ok_inv & Hrun).
  assert (forall l, extends (walk dev global cfg fuel l)) as Hext
    by (intros l; apply extends_walk).
  assert (forall l, restores (walk dev global cfg fuel l)) as Hres
    by (intros l; apply restores_walk).
  destruct (handled node) eqn:Hh.
  2:{ assert (descend (walk dev global cfg fuel) n node m = (Ok T, m'))
        as Hd by (by destruct node).
      clear Hrun. unfold descend in Hd.
      apply bind_Ok_inv in Hd as (cs & m1 & Hcs & Hrun).
      rewrite kids_unhandled in Hi by done.
      destruct (walk_children_lookup _ _ _ _ _ _ _ Hext Hres Hcs Hi)
        as (c' & ma & mb & Hi' & Hc & Hma & Hsa & Hmb).
      assert (objs m `prefix_of` objs m1) as Hm1.
      { eapply extends_run; [|exact Hcs]. by apply extends_walk_children. }
      apply reuse_or_alloc_inv in Hrun as (HT & Hm' & _).
      2:{ intros ->%bool_decide_eq_true. rewrite with_children_children.
          by eapply prefix_lookup_Some. }
      exists (with_children node cs), c'. split; [done|].
      rewrite kids_unhandled by (by rewrite handled_with_children).
      rewrite children_with_children by (by eapply walk_children_shape).
      split; [done|]. rewrite walked_unhandled by done.
      exists ma, mb. repeat split; try done.
      - intros F sc'. rewrite child_scope_unhandled by done. congruence.
      - by etrans. }
  destruct node; try done.
  - (* MemberExpression *)
    apply bind_Ok_inv in Hrun as (o & ? & [_ ->]%deref_Ok_inv & Hrun).
    apply bind_Ok_inv in Hrun as ([] & ? & [_ ->]%ok_Ok_inv & Hrun).
    apply bind_Ok_inv in Hrun as (p & ? & [_ ->]%deref_Ok_inv & Hrun).
    apply bind_Ok_inv in Hrun as ([] & ? & [_ ->]%ok_Ok_inv & Hrun).
    apply bind_Ok_inv in Hrun as (object' & m1 & Hwo & Hrun).
    apply bind_Ok_inv in Hrun as (property' & m2 & Hwp & Hrun).
    pose proof (extends_run _ _ _ _ (Hext _) Hwo) as Hm1.
    pose proof (Hres _ _ _ _ Hwo) as Hsc1.
    assert (objs m1 `prefix_of` objs m2) as Hm2.
    { destruct computed; [by eapply extends_run; [apply Hext|]|].
      by injection Hwp as _ <-. }
    apply reuse_or_alloc_inv in Hrun as (HT & Hm' & _).
    2:{ intros [-> ->]%bool_decide_eq_true.
        eapply prefix_lookup_Some; [exact Hl|]. by etrans. }
    exists (MemberExpression object' property' computed optional).
    destruct i as [|[|i]]; cbn in Hi; [| |done]; injection Hi as <-.
    + exists object'. split; [done|]. split; [done|]. cbn.
      exists m, m1. repeat split; try done; [congruence|by etrans].
    + exists property'. split; [done|]. split; [done|]. cbn.
      destruct computed.
      * exists m1, m2. repeat split; try done. congruence.
      * by injection Hwp as <- _.
  - (* ArrowFunctionExpression *)
    apply bind_Ok_inv in Hrun as (b & ? & [_ ->]%deref_Ok_inv & Hrun).
    case_bool_decide; [done|].
    apply bind_Ok_inv in Hrun as (len & ? & [= <- <-] & Hrun).
    apply bind_Ok_inv in Hrun as ([] & m1 & Hscan & Hrun).
    apply for_of_extractDeclaration_Ok_inv in Hscan as (names & Hnames & ->).
    apply bind_Ok_inv in Hrun as (body' & m2 & Hwb & Hrun).
    pose proof (extends_run _ _ _ _ (Hext _) Hwb) as Hm2.
    apply bind_Ok_inv in Hrun as ([] & ? & [= <-] & Hrun).
    apply reuse_or_alloc_inv in Hrun as (HT & Hm' & _).
    2:{ intros ->%bool_decide_eq_true. by eapply prefix_lookup_Some. }
    cbn [objs] in *.
    exists (ArrowFunctionExpression params body' async).
    cbn [kids walked] in *.
    destruct (decide (i < length params)) as [Hlt|Hge].
    + rewrite lookup_app_l in Hi by (by rewrite length_fmap).
      exists c. split; [done|].
      split; [by rewrite lookup_app_l by (by rewrite length_fmap)|].
      by rewrite bool_decide_eq_false_2 by lia.
    + rewrite lookup_app_r in Hi by (rewrite length_fmap; lia).
      rewrite length_fmap in Hi.
      destruct (i - length params) as [|k] eqn:Hk; [|by destruct k].
      injection Hi as <-. assert (i = length params) as -> by lia.
      exists body'. split; [done|].
      split.
      { rewrite lookup_app_r by (by rewrite length_fmap).
        by rewrite length_fmap, Nat.sub_diag. }
      rewrite bool_decide_eq_true_2 by done.
      eexists _, m2. split; [exact Hwb|]. repeat split; try done.
      intros F sc'. cbn [child_scope scope].
      destruct (collect (bound_names F (objs m)) params) as [names'|] eqn:Hc;
        [|done].
      intros [= <-]. f_equal.
      assert (collect (bound_names (F `max` fuel) (objs m)) params
              = Some names) as H1.
      { eapply collect_mono; [|exact Hnames].
        intros p a. apply bound_names_mono; [lia|done]. }
      assert (collect (bound_names (F `max` fuel) (objs m)) params
              = Some names') as H2.
      { eapply collect_mono; [|exact Hc].
        intros p a. apply bound_names_mono; [lia|done]. }
      congruence.
  - (* Property *)
    apply bind_Ok_inv in Hrun as (k & ? & [_ ->]%deref_Ok_inv & Hrun).
    apply bind_Ok_inv in Hrun as ([] & ? & [_ ->]%ok_Ok_inv & Hrun).
    apply bind_Ok_inv in Hrun as (key' & m1 & Hwk & Hrun).
    apply bind_Ok_inv in Hrun as (value' & m2 & Hwv & Hrun).
    assert (objs m `prefix_of` objs m1 /\ scope m1 = scope m) as [Hm1 Hsc1].
    { destruct computed.
      - split; [by eapply extends_run; [apply Hext|]|by eapply Hres].
      - by injection Hwk as _ <-. }
    pose proof (extends_run _ _ _ _ (Hext _) Hwv) as Hm2.
    apply reuse_or_alloc_inv in Hrun as (HT & Hm' & _).
    2:{ intros [-> ->]%bool_decide_eq_true.
        eapply prefix_lookup_Some; [exact Hl|]. by etrans. }
    exists (Property key' value' computed kind method shorthand).
    destruct i as [|[|i]]; cbn in Hi; [| |done]; injection Hi as <-.
    + exists key'. split; [done|]. split; [done|]. cbn.
      destruct computed.
      * exists m, m1. repeat split; try done; [congruence|by etrans].
      * by injection Hwk as <- _.
    + exists value'. split; [done|]. split; [done|]. cbn.
      exists m1, m2. repeat split; try done. congruence.
Qed.

(** Every position of the input is a position of the output.  Where the
    walker took every step to it, the output has there what the walk of
    the input's node returned, a walk started with the scope of that
    position; elsewhere it has the input's node itself. *)
Lemma walk_at_path {dev} global cfg path :
  forall fuel n m T m' F c sc w,
    walk dev global cfg fuel n m = (Ok T, m') ->
    locate F (objs m) (scope m) true n path = Some (c, sc, w) ->
    exists c',
      at_path (objs m') T path = Some c'
      /\ if w
         then exists fuelc m1 m2,
                walk dev global cfg fuelc c m1 = (Ok c', m2)
                /\ objs m `prefix_of` objs m1 /\ scope m1 = sc
                /\ objs m2 `prefix_of` objs m'
         else c' = c.
Proof.
  induction path as [|i path IH]; intros fuel n m T m' F c sc w Hwalk.
  - intros [= <- <- <-]. exists T. split; [done|]. by exists fuel, m, m'.
  - cbn [locate]. destruct (objs m !! n) as [node|] eqn:Hn; [|done].
    destruct (kids node !! i) as [[c0|]|] eqn:Hi; [|done|done].
    destruct (child_scope F (objs m) (scope m) node) as [sc0|] eqn:Hsc;
      [|done].
    cbn [andb]. intros Hloc. destruct fuel as [|fuel]; [done|].
    destruct (walk_child _ _ _ _ _ _ _ _ _ _ Hwalk Hn Hi)
      as (node' & c0' & HT & Hi' & Hstep).
    cbn [at_path]. rewrite HT, Hi'.
    destruct (walked node i).
    + destruct Hstep as (m1 & m2 & Hw0 & Hm1 & Hsc1 & Hm2).
      specialize (Hsc1 _ _ Hsc).
      apply (locate_mono _ F _ (objs m1)) in Hloc; [|done|done].
      rewrite <- Hsc1 in Hloc.
      destruct (IH _ _ _ _ _ _ _ _ _ Hw0 Hloc) as (c' & Hat & Hrest).
      exists c'. split; [by eapply at_path_mono|].
      destruct w; [|done].
      destruct Hrest as (fuelc & ma & mb & ? & ? & ? & ?).
      exists fuelc, ma, mb. repeat split; try done; by etrans.
    + subst c0'. apply locate_at_path in Hloc as [Hat Hw].
      rewrite (Hw eq_refl). exists c. split; [|done].
      eapply at_path_mono; [|exact Hat].
      eapply extends_run; [|exact Hwalk]. apply extends_walk.
Qed.

(** A walk that returns another reference than it was given has found,
    at a position it reached, an identifier that is no member of the
    scope there. *)
Lemma walk_changed {dev} global cfg fuel :
  forall n m T m',
    walk dev global cfg fuel n m = (Ok T, m') -> T <> n ->
    exists path c sc name,
      locate fuel (objs m') (scope m) true n path = Some (c, sc, true)
      /\ objs m' !! c = Some (Identifier name) /\ name ∉ sc.
Proof.
  induction fuel as [|fuel IH]; intros n m T m' Hwalk HT; [done|].
  pose proof (extends_run _ _ _ _ (extends_walk _ _ _ _) Hwalk) as Hm'.
  cbn [walk] in Hwalk.
  apply bind_Ok_inv in Hwalk as (node & ? & [Hl ->]%deref_Ok_inv & Hrun).
  apply bind_Ok_inv in Hrun as ([] & ? & [_ ->]%ENTER_Ok_inv & Hrun).
  pose proof (prefix_lookup_Some _ _ _ _ Hl Hm') as Hl'.
  assert (forall l, extends (walk dev global cfg fuel l)) as Hext
    by (intros l; apply extends_walk).
  assert (forall l, restores (walk dev global cfg fuel l)) as Hres
    by (intros l; apply restores_walk).
  assert (forall i c c' m1 m2 sc',
    kids node !! i = Some (Some c) -> walked node i = true ->
    child_scope (S fuel) (objs m') (scope m) node = Some sc' ->
    walk dev global cfg fuel c m1 = (Ok c', m2) -> c' <> c ->
    scope m1 = sc' -> objs m2 `prefix_of` objs m' ->
    exists path d sc name,
      locate (S fuel) (objs m') (scope m) true n path = Some (d, sc, true)
      /\ objs m' !! d = Some (Identifier name) /\ name ∉ sc) as Hdown.
  { intros i c c' m1 m2 sc' Hi Hw Hsc Hc Hne Hsc1 Hm2.
    destruct (IH _ _ _ _ Hc Hne) as (path & d & sc & name & Hloc & Hd & Hin).
    exists (i :: path), d, sc, name. split; [|split; [|done]].
    - eapply locate_cons; [exact Hl'|exact Hi|exact Hsc|exact Hw|].
      rewrite <- Hsc1. eapply locate_mono; [|exact Hm2|exact Hloc]. lia.
    - by eapply prefix_lookup_Some. }
  destruct (handled node) eqn:Hh.
  2:{ assert (descend (walk dev global cfg fuel) n node m = (Ok T, m'))
        as Hd by (by destruct node).
      clear Hrun. unfold descend in Hd.
      apply bind_Ok_inv in Hd as (cs & m1 & Hcs & Hrun).
      case_bool_decide as Hcs'; [by injection Hrun as <- _|].
      injection Hrun as _ <-.
      destruct (walk_children_changed _ _ _ _ _ Hext Hres Hcs Hcs')
        as (i & c & c' & ma & mb & Hi & Hc & Hne & Hsa & Hmb).
      eapply (Hdown i c c' ma mb); try done.
      - by rewrite kids_unhandled.
      - by apply walked_unhandled.
      - by apply child_scope_unhandled.
      - cbn [objs]. etrans; [exact Hmb|]. by apply prefix_app_r. }
  destruct node; try done.
  - (* Identifier *)
    apply bind_Ok_inv in Hrun as (bound & ? & [= <- <-] & Hrun).
    case_bool_decide as Hin; [by injection Hrun as <- _|].
    by exists [], n, (scope m), name.
  - (* MemberExpression *)
    apply bind_Ok_inv in Hrun as (o & ? & [_ ->]%deref_Ok_inv & Hrun).
    apply bind_Ok_inv in Hrun as ([] & ? & [_ ->]%ok_Ok_inv & Hrun).
    apply bind_Ok_inv in Hrun as (p & ? & [_ ->]%deref_Ok_inv & Hrun).
    apply bind_Ok_inv in Hrun as ([] & ? & [_ ->]%ok_Ok_inv & Hrun).
    apply bind_Ok_inv in Hrun as (object' & m1 & Hwo & Hrun).
    apply bind_Ok_inv in Hrun as (property' & m2 & Hwp & Hrun).
    case_bool_decide as Hsame; [by injection Hrun as <- _|].
    injection Hrun as _ <-. cbn [objs] in *.
    destruct (decide (object' = object)) as [->|Hne].
    + destruct computed; [|injection Hwp as <- _; by destruct Hsame].
      eapply (Hdown 1 property property' m1 m2); try done.
      * intros ->. by destruct Hsame.
      * by eapply Hres.
      * by apply prefix_app_r.
    + eapply (Hdown 0 object object' m m1); try done.
      etrans; [|by apply prefix_app_r].
      destruct computed; [by eapply extends_run; [apply Hext|]|].
      by injection Hwp as _ <-.
  - (* ArrowFunctionExpression *)
    apply bind_Ok_inv in Hrun as (b & ? & [_ ->]%deref_Ok_inv & Hrun).
    case_bool_decide; [done|].
    apply bind_Ok_inv in Hrun as (len & ? & [= <- <-] & Hrun).
    apply bind_Ok_inv in Hrun as ([] & m1 & Hscan & Hrun).
    apply for_of_extractDeclaration_Ok_inv in Hscan as (names & Hnames & ->).
    apply bind_Ok_inv in Hrun as (body' & m2 & Hwb & Hrun).
    apply bind_Ok_inv in Hrun as ([] & ? & [= <-] & Hrun).
    case_bool_decide as Hsame; [by injection Hrun as <- _|].
    injection Hrun as _ <-. cbn [objs scope] in *.
    eapply (Hdown (length params) body body' _ m2); try done.
    * cbn [kids]. rewrite lookup_app_r by (by rewrite length_fmap).
      by rewrite length_fmap, Nat.sub_diag.
    * cbn [walked]. by apply bool_decide_eq_true.
    * cbn [child_scope]. erewrite collect_mono; [done| |exact Hnames].
      intros p a. apply bound_names_mono; [lia|done].
    * by apply prefix_app_r.
  - (* Property *)
    apply bind_Ok_inv in Hrun as (k & ? & [_ ->]%deref_Ok_inv & Hrun).
    apply bind_Ok_inv in Hrun as ([] & ? & [_ ->]%ok_Ok_inv & Hrun).
    apply bind_Ok_inv in Hrun as (key' & m1 & Hwk & Hrun).
    apply bind_Ok_inv in Hrun as (value' & m2 & Hwv & Hrun).
    case_bool_decide as Hsame; [by injection Hrun as <- _|].
    injection Hrun as _ <-. cbn [objs] in *.
    assert (scope m1 = scope m) as Hsc1.
    { destruct computed; [by eapply Hres|by injection Hwk as _ <-]. }
    destruct (decide (value' = value)) as [->|Hne].
    + destruct computed; [|injection Hwk as <- _; by destruct Hsame].
      eapply (Hdown 0 key key' m m1); try done.
      * intros ->. by destruct Hsame.
      * etrans; [|by apply prefix_app_r].
        by eapply extends_run; [apply Hext|].
    + eapply (Hdown 1 value value' m1 m2); try done.
      by apply prefix_app_r.
Qed.

(** * The properties of the specification *)




(** C2: the default value of an arrow function's parameter is not
    walked.  [(a = b) => a] is returned as it came, with neither
    parameters nor a global binding, although the same expression [b]
    handed to [transform] on its own is an unresolved reference; and under
    a global binding [g] the default value stays [b], where the body's
    free identifiers would have become [g.b]. *)
Theorem transform_skips_default_value :
  transform ascii_ident false 3 4 [] None default_enables tree_default_param
  = (Ok 4, Mem tree_default_param [])
  /\ transform ascii_ident false 3 1 [] None default_enables tree_default_param
     = (Abort (Throw (ReferenceError "variable 'b' is not defined")),
        Mem tree_default_param [])
  /\ transform ascii_ident false 3 4 ["g"] (Some "g") default_enables
       tree_default_param
     = (Ok 4, Mem tree_default_param ["g"]).
Proof. repeat split; reflexivity. Qed.

(** C3, as stated, fails: with an empty parameter list the global binding
    [g] is refused at entry, before the tree is looked at. *)
Lemma transform_global_not_in_params :
  transform ascii_ident false 3 0 [] (Some "g") default_enables tree_a
  = (Abort (Throw (SyntaxError
                     "global object name 'g' is not in parameter list")),
     Mem tree_a []).
Proof. reflexivity. Qed.

(** C3, amended: with the parameter list [g], the global binding [g] and
    the single identifier [a], [transform] returns a non-computed property
    access whose object is the identifier [g] and whose property is the
    identifier [a]. *)
Theorem transform_global_capture {dev} isIdent fuel cfg :
  isIdent "g" = true ->
  transform isIdent dev (S fuel) 0 ["g"] (Some "g") cfg tree_a
  = (Ok 3, Mem tree_g_a ["g"])
  /\ tree_g_a !! 3 = Some (MemberExpression 1 2 false false)
  /\ tree_g_a !! 1 = Some (Identifier "g")
  /\ tree_g_a !! 2 = Some (Identifier "a").
Proof.
  intros Hg. repeat split.
  unfold transform, bind. cbn [check_params]. by rewrite Hg.
Qed.

Lemma transform_global_capture_witness :
  transform ascii_ident false 1 0 ["g"] (Some "g") default_enables tree_a
  = (Ok 3, Mem tree_g_a ["g"]).
Proof.
  apply (transform_global_capture (dev:=false) ascii_ident 0 default_enables).
  reflexivity.
Defined.

(** C4: the identifier handler.  An identifier whose name is a member of
    the scope is returned as the reference it is; one that is not is an
    unresolved-reference error naming it when no global binding is
    configured, and otherwise a fresh non-computed property access whose
    object is a fresh [this] node (global binding the self-reference) or a
    fresh identifier naming the global binding, and whose property is a
    fresh identifier of the original name.  Only membership in the scope
    list is consulted.  With no parameters and no global binding, [a] is
    an unresolved reference. *)
Theorem walk_Identifier {dev} global cfg fuel l name m :
  objs m !! l = Some (Identifier name) ->
  (name ∈ scope m -> walk dev global cfg (S fuel) l m = (Ok l, m))
  /\ (name ∉ scope m -> global = None ->
      walk dev global cfg (S fuel) l m
      = (Abort (Throw (ReferenceError
                         ("variable '" +:+ name +:+ "' is not defined"))), m))
  /\ (name ∉ scope m -> forall g, global = Some g ->
      exists T object property fresh,
        walk dev global cfg (S fuel) l m
        = (Ok T, Mem (objs m ++ fresh) (scope m))
        /\ (objs m ++ fresh)%list !! T
           = Some (MemberExpression object property false false)
        /\ (objs m ++ fresh)%list !! object
           = Some (if bool_decide (g = "this") then ThisExpression
                   else Identifier g)
        /\ (objs m ++ fresh)%list !! property = Some (Identifier name))
  /\ (forall isIdent,
        transform isIdent dev (S fuel) 0 [] None cfg tree_a
        = (Abort (Throw (ReferenceError "variable 'a' is not defined")),
           Mem tree_a [])).
Proof.
  intros Hl. cbn [walk].
  rewrite (bind_Ok _ _ _ _ _ (deref_Ok l m _ Hl)).
  rewrite (bind_Ok _ _ _ _ _ (ENTER_admitted cfg (Identifier name) m eq_refl)).
  change (bind (includes name) ?k m) with (k (bool_decide (name ∈ scope m)) m).
  cbn beta. split; [|split; [|split]].
  - intros Hin. by case_bool_decide.
  - intros Hin ->. case_bool_decide; [contradiction|reflexivity].
  - intros Hin g ->. case_bool_decide; [contradiction|].
    set (o := if bool_decide (g = "this") then ThisExpression
              else Identifier g).
    exists (length (objs m) + 1 + 1), (length (objs m)),
      (length (objs m) + 1),
      [o; Identifier name;
       MemberExpression (length (objs m)) (length (objs m) + 1) false false].
    destruct (lookup_fresh3 (objs m) o (Identifier name)
                (MemberExpression (length (objs m)) (length (objs m) + 1)
                   false false)) as (Ho & Hp & Hx).
    cbn zeta in Ho, Hp, Hx. rewrite <- !(assoc_L (++)%list) in Ho, Hp, Hx.
    cbn [app] in Ho, Hp, Hx.
    split; [|done]. unfold bind, alloc. cbn [objs scope].
    rewrite !length_app. cbn [length].
    by rewrite <- !(assoc_L (++)%list).
  - reflexivity.
Qed.

Lemma walk_Identifier_witness :
  walk false (Some "this") default_enables 1 0 (Mem tree_a ["a"])
  = (Ok 0, Mem tree_a ["a"])
  /\ walk false None default_enables 1 0 (Mem tree_a ["b"])
     = (Abort (Throw (ReferenceError "variable 'a' is not defined")),
        Mem tree_a ["b"])
  /\ exists T object property fresh,
       walk false (Some "this") default_enables 1 0 (Mem tree_a ["b"])
       = (Ok T, Mem (tree_a ++ fresh) ["b"])
       /\ (tree_a ++ fresh)%list !! T
          = Some (MemberExpression object property false false)
       /\ (tree_a ++ fresh)%list !! object = Some ThisExpression
       /\ (tree_a ++ fresh)%list !! property = Some (Identifier "a").
Proof.
  split; [|split].
  - apply (walk_Identifier (dev:=false) (Some "this") default_enables 0 0 "a"
             (Mem tree_a ["a"]) eq_refl).
    apply (bool_decide_eq_true_1 _). reflexivity.
  - apply (walk_Identifier (dev:=false) None default_enables 0 0 "a"
             (Mem tree_a ["b"]) eq_refl); [|reflexivity].
    apply (bool_decide_eq_false_1 _). reflexivity.
  - apply (walk_Identifier (dev:=false) (Some "this") default_enables 0 0 "a"
             (Mem tree_a ["b"]) eq_refl) with (g := "this"); [|reflexivity].
    apply (bool_decide_eq_false_1 _). reflexivity.
Defined.

(** C5: scope restoration.  When the walk of an arrow function returns,
    the scope list is the one the walk started with, and so has the same
    length, although the body was walked under the scope extended with the
    names the parameters bind, and whether the node came back as it was or
    as a copy; the walk is at any point of a traversal, so under any
    number of enclosing arrow functions. *)
Theorem arrow_scope_restored {dev} global cfg fuel l params body async m T m' :
  objs m !! l = Some (ArrowFunctionExpression params body async) ->
  walk dev global cfg (S fuel) l m = (Ok T, m') ->
  (exists names body' m1,
      collect (bound_names fuel (objs m)) params = Some names
      /\ walk dev global cfg fuel body (Mem (objs m) (scope m ++ names)%list)
         = (Ok body', m1)
      /\ scope m1 = (scope m ++ names)%list)
  /\ length (scope m') = length (scope m)
  /\ scope m' = scope m.
Proof.
  intros Hl Hwalk.
  pose proof (restores_walk _ _ _ _ _ _ _ Hwalk) as Hscope.
  split; [|by rewrite Hscope].
  cbn [walk] in Hwalk.
  rewrite (bind_Ok _ _ _ _ _ (deref_Ok l m _ Hl)) in Hwalk.
  apply bind_Ok_inv in Hwalk as ([] & ? & [_ ->]%ENTER_Ok_inv & Hwalk).
  apply bind_Ok_inv in Hwalk as (b & ? & [_ ->]%deref_Ok_inv & Hwalk).
  case_bool_decide; [done|].
  apply bind_Ok_inv in Hwalk as (len & ? & [= <- <-] & Hwalk).
  apply bind_Ok_inv in Hwalk as ([] & m0 & Hscan & Hwalk).
  apply for_of_extractDeclaration_Ok_inv in Hscan as (names & Hnames & ->).
  apply bind_Ok_inv in Hwalk as (body' & m1 & Hbody & _).
  exists names, body', m1. split; [done|]. split; [done|].
  by apply restores_walk in Hbody.
Qed.

Lemma arrow_scope_restored_witness :
  walk false (Some "g") default_enables 9 8 (Mem tree_curry ["g"])
  = (Ok 14, Mem tree_curry_g ["g"])
  /\ length (scope (Mem tree_curry_g ["g"])) = length (scope (Mem tree_curry ["g"])).
Proof.
  split; [reflexivity|].
  apply (arrow_scope_restored (dev:=false) (Some "g") default_enables 8 8 [0] 7 false
           (Mem tree_curry ["g"]) 14 (Mem tree_curry_g ["g"]));
    reflexivity.
Defined.

(** A walk that throws inside an arrow function's body never reaches the
    [splice]: the names the parameters pushed stay in the scope array. *)
Example scope_left_extended_on_throw :
  walk false None default_enables 9 8 (Mem tree_curry ["g"])
  = (Abort (Throw (ReferenceError "variable 'c' is not defined")),
     Mem tree_curry ["g"; "a"; "b"]).
Proof. reflexivity. Qed.

(** C6: the binding scanner.  Whenever the pattern binds [names] (an
    identifier its name; an object pattern the names of each property
    entry's value and of each rest capture's target, in order; an array
    pattern those of each present element, holes skipped; a rest element
    those of its target; a default-value pattern those of its left-hand
    target), [extractDeclaration] returns with exactly [names] appended to
    the scope, and it returns in no other case; on a node of any other
    kind it throws at once, the scope untouched.  The pattern
    [{a: {a: [, a], ...c}, c: b = 2}] binds [a], [c], [b], that is the
    names a, b and c. *)
Theorem extractDeclaration_bound_names :
  (forall fuel h pattern sc names,
      bound_names fuel h pattern = Some names ->
      extractDeclaration fuel pattern (Mem h sc)
      = (Ok tt, Mem h (sc ++ names)%list))
  /\ (forall fuel pattern m m',
         extractDeclaration fuel pattern m = (Ok tt, m') ->
         exists names, bound_names fuel (objs m) pattern = Some names
                       /\ m' = Mem (objs m) (scope m ++ names)%list)
  /\ (forall fuel h pattern sc n,
         h !! pattern = Some n -> is_pattern n = false ->
         extractDeclaration (S fuel) pattern (Mem h sc)
         = (Abort (Throw (Error "unknown Pattern syntax")), Mem h sc))
  /\ bound_names 5 tree_complex_pattern 14 = Some ["a"; "c"; "b"]
  /\ (forall x : string, x ∈ ["a"; "c"; "b"] <-> x ∈ ["a"; "b"; "c"]).
Proof.
  split; [|split; [|split; [|split]]].
  - intros fuel h pattern sc names Hnames.
    pose proof (scans_extractDeclaration fuel h pattern sc) as Hs.
    by rewrite Hnames in Hs.
  - apply extractDeclaration_Ok_inv.
  - intros fuel h pattern sc n Hl Hn. cbn [extractDeclaration].
    rewrite (bind_Ok _ _ _ _ _ (deref_Ok pattern (Mem h sc) n Hl)).
    by destruct n.
  - reflexivity.
  - intros x. rewrite !elem_of_cons, elem_of_nil. tauto.
Qed.

Lemma extractDeclaration_bound_names_witness :
  extractDeclaration 5 14 (Mem tree_complex_pattern ["a"])
  = (Ok tt, Mem tree_complex_pattern ["a"; "a"; "c"; "b"])
  /\ extractDeclaration 1 11 (Mem tree_complex_pattern ["a"])
     = (Abort (Throw (Error "unknown Pattern syntax")),
        Mem tree_complex_pattern ["a"]).
Proof.
  destruct extractDeclaration_bound_names as (Hbinds & _ & Hother & _).
  split.
  - apply (Hbinds 5 tree_complex_pattern 14 ["a"] ["a"; "c"; "b"]).
    reflexivity.
  - apply (Hother 0 tree_complex_pattern 11 ["a"] (Literal "2"));
      reflexivity.
Defined.

(** C7: the policy on unary and binary operators.  On entering a unary or
    binary operator node, the hook raises the syntax-policy violation
    naming the operator exactly when the operator is [delete] with the
    mutation switch off, or one of [typeof], [in], [instanceof] with the
    inspection switch off, and the walk of the node then ends in that
    violation with nothing changed; in every other case the node is
    admitted, and an operator outside these four is admitted under every
    configuration. *)
Theorem operator_policy_violation {dev} global cfg fuel l node op m :
  objs m !! l = Some node ->
  (exists argument, node = UnaryExpression op argument)
  \/ (exists a b, node = BinaryExpression op a b) ->
  let violation :=
    (op = "delete" /\ enableUpdate cfg = false)
    \/ (op ∈ ["typeof"; "in"; "instanceof"] /\ enableInspect cfg = false) in
  let raised := Throw (SyntaxError ("operator " +:+ op +:+ " is disabled")) in
  (ENTER cfg node m = (Abort raised, m) <-> violation)
  /\ (violation -> walk dev global cfg (S fuel) l m = (Abort raised, m))
  /\ (~ violation -> ENTER cfg node m = (Ok tt, m))
  /\ (op ∉ ["delete"; "typeof"; "in"; "instanceof"] ->
      forall cfg', ENTER cfg' node m = (Ok tt, m)).
Proof.
  intros Hl Hnode. cbn zeta.
  assert (forall cfg', ENTER cfg' node m
            = if admitted cfg' node then (Ok tt, m)
              else (Abort (Throw (SyntaxError
                      ("operator " +:+ op +:+ " is disabled"))), m))
    as HENTER.
  { intros cfg'.
    destruct Hnode as [[? ->]|(? & ? & ->)]; cbn [ENTER admitted];
      rewrite operator_policy; by case_match. }
  assert (forall cfg', admitted cfg' node = false <->
            (op = "delete" /\ enableUpdate cfg' = false)
            \/ (op ∈ ["typeof"; "in"; "instanceof"]
                /\ enableInspect cfg' = false)) as Hadm.
  { intros cfg'.
    destruct Hnode as [[? ->]|(? & ? & ->)]; cbn [admitted];
      rewrite andb_false_iff, !negb_false_iff, !andb_true_iff,
        !negb_true_iff, !bool_decide_eq_true; done. }
  split; [|split; [|split]].
  - rewrite HENTER, <- Hadm. by destruct (admitted cfg node).
  - intros Hv%Hadm. cbn [walk].
    rewrite (bind_Ok _ _ _ _ _ (deref_Ok l m node Hl)).
    apply bind_Abort. by rewrite HENTER, Hv.
  - intros Hv. rewrite HENTER.
    destruct (admitted cfg node) eqn:Ha; [done|]. by apply Hadm in Ha.
  - intros Hop cfg'. rewrite HENTER.
    destruct (admitted cfg' node) eqn:Ha; [done|].
    apply Hadm in Ha. exfalso. apply Hop.
    revert Ha. rewrite !elem_of_cons, !elem_of_nil. tauto.
Qed.

Lemma operator_policy_violation_witness :
  walk false None default_enables 1 1 (Mem tree_typeof ["a"])
  = (Abort (Throw (SyntaxError "operator typeof is disabled")),
     Mem tree_typeof ["a"]).
Proof.
  apply (operator_policy_violation (dev:=false) None default_enables 0 1
           (UnaryExpression "typeof" 0) "typeof" (Mem tree_typeof ["a"])).
  - reflexivity.
  - left. exists 0. reflexivity.
  - right. split; [|reflexivity].
    apply (bool_decide_eq_true_1 _). reflexivity.
Defined.

(** C8: structural reuse.  A subtree that is certified at the scope it is
    reached with (no node of a refused kind, no identifier outside the
    scope) comes back from the walker as the very address it was given,
    with nothing allocated and the scope as before, wherever in a
    traversal it is reached, that is in any store that extends the one
    holding it, and under any recursion bound that reaches its leaves.
    So, whenever a walk returns, the output has at the position of such a
    subtree the very address the input has there, and likewise at every
    position the walker does not reach.  And where the output has, at a
    position the walker reached, another address than the input, that
    address is a new one and the input's node there lies on the way from
    the root to an identifier outside the scope of its position, a
    rewritten one. *)
Theorem certified_subtree_reused {dev} global cfg :
  (forall fuel fuel' h h' sc l,
      certified dev false fuel cfg h sc l = true ->
      h `prefix_of` h' -> fuel <= fuel' ->
      walk dev global cfg fuel' l (Mem h' sc) = (Ok l, Mem h' sc))
  /\ (forall fuel n m T m' F path c sc w k,
        walk dev global cfg fuel n m = (Ok T, m') ->
        locate F (objs m) (scope m) true n path = Some (c, sc, w) ->
        (w = true -> certified dev false k cfg (objs m) sc c = true) ->
        at_path (objs m') T path = Some c)
  /\ (forall fuel n m T m' F path c sc c',
        walk dev global cfg fuel n m = (Ok T, m') ->
        locate F (objs m) (scope m) true n path = Some (c, sc, true) ->
        at_path (objs m') T path = Some c' -> c' <> c ->
        length (objs m) <= c'
        /\ exists F' path' d sc' name,
             locate F' (objs m') sc true c path' = Some (d, sc', true)
             /\ objs m' !! d = Some (Identifier name) /\ name ∉ sc').
Proof.
  split; [|split].
  - intros fuel fuel' h h' sc l Hcert Hh Hfuel. apply walk_certified_id.
    by eapply certified_mono.
  - intros fuel n m T m' F path c sc w k Hwalk Hloc Hcert.
    destruct (walk_at_path global cfg path _ _ _ _ _ _ _ _ _ Hwalk Hloc)
      as (c' & Hat & Hrest).
    destruct w; [|by subst].
    destruct Hrest as (fuelc & m1 & m2 & Hwc & Hm1 & Hsc & Hm2).
    specialize (Hcert eq_refl).
    apply (certified_mono cfg k (k `max` fuelc) _ (objs m1)) in Hcert;
      [|lia|done].
    apply (walk_certified_id global) in Hcert.
    assert (fuelc <= k `max` fuelc) as Hle by lia.
    pose proof (walk_fuel global cfg _ _ c Hle m1 _ _ Hwc) as Hwc'.
    destruct m1 as [h1 sc1]. cbn [objs scope] in *. subst sc1.
    rewrite Hcert in Hwc'. by injection (Hwc' ltac:(done)) as <- _.
  - intros fuel n m T m' F path c sc c' Hwalk Hloc Hat Hne.
    destruct (walk_at_path global cfg path _ _ _ _ _ _ _ _ _ Hwalk Hloc)
      as (c2 & Hat2 & fuelc & m1 & m2 & Hwc & Hm1 & Hsc & Hm2).
    rewrite Hat in Hat2. injection Hat2 as <-. split.
    + destruct (same_or_fresh_walk global cfg fuelc _ _ _ _ Hwc)
        as [_ [[? _]|[? _]]]; [done|].
      apply prefix_length in Hm1. lia.
    + destruct (walk_changed global cfg fuelc _ _ _ _ Hwc Hne)
        as (path' & d & sc' & name & Hloc' & Hd & Hin).
      exists fuelc, path', d, sc', name. rewrite <- Hsc.
      split; [by eapply locate_mono; [| |exact Hloc']|].
      split; [by eapply prefix_lookup_Some|done].
Qed.

Lemma certified_subtree_reused_witness :
  walk false (Some "g") default_enables 9 8 (Mem tree_curry ["g"])
  = (Ok 14, Mem tree_curry_g ["g"])
  /\ locate 1 tree_curry ["g"] true 8 [1; 1; 0]
     = Some (4, ["g"; "a"; "b"], true)
  /\ certified false false 3 default_enables tree_curry ["g"; "a"; "b"] 4
     = true
  /\ at_path tree_curry_g 14 [1; 1; 0] = Some 4.
Proof.
  split; [reflexivity|]. split; [reflexivity|]. split; [reflexivity|].
  destruct (certified_subtree_reused (dev:=false) (Some "g") default_enables)
    as (_ & Hpath & _).
  apply (Hpath 9 8 (Mem tree_curry ["g"]) 14 (Mem tree_curry_g ["g"]) 1
           [1; 1; 0] 4 ["g"; "a"; "b"] true 3); [reflexivity|reflexivity|].
  intros _. reflexivity.
Defined.

(** C9, as stated, fails: with no parameters, the self-reference as global
    binding and the default switches, [transform] turns [a] into [this.a];
    run again on that tree, with the same arguments, it refuses the [this]
    node it has synthesized, whatever the fuel. *)
Lemma transform_again_refuses_this :
  transform ascii_ident false 1 0 [] (Some "this") default_enables tree_a
  = (Ok 3, Mem tree_this_a [])
  /\ transform ascii_ident false 2 3 [] (Some "this") default_enables tree_this_a
     = (Abort (Throw (SyntaxError "expression ThisExpression is disabled")),
        Mem tree_this_a [])
  /\ forall dev fuel T m,
       transform ascii_ident dev fuel 3 [] (Some "this") default_enables
         tree_this_a
       <> (Ok T, m).
Proof.
  split; [reflexivity|]. split; [reflexivity|].
  intros [] [|[|fuel]] T m; discriminate.
Qed.

Lemma check_params_any isIdent params m1 m2 r :
  check_params isIdent params m1 = (r, m1) ->
  check_params isIdent params m2 = (r, m2).
Proof.
  revert r. induction params as [|param rest IH]; intros r; cbn [check_params].
  - by intros [= <-].
  - destruct (negb (isIdent param)); [by intros [= <-]|].
    case_bool_decide; [by intros [= <-]|]. apply IH.
Qed.

Lemma synthesizes_this_off global cfg :
  (global = Some "this" -> enableThis cfg = true) ->
  synthesizes_this global cfg = false.
Proof.
  intros Hthis. unfold synthesizes_this.
  case_bool_decide as Hg; [|done]. by rewrite (Hthis Hg).
Qed.

(** C9, amended: whenever [transform] returns [T], and the [this] switch
    is on in case the global binding is the self-reference, running
    [transform] again on [T] with the same parameter list, global binding
    and switches returns the very node [T], with nothing allocated. *)
Theorem transform_idempotent {dev} isIdent fuel fuel' ast params global cfg h T m' :
  transform isIdent dev fuel ast params global cfg h = (Ok T, m') ->
  (global = Some "this" -> enableThis cfg = true) ->
  fuel < fuel' ->
  transform isIdent dev fuel' T params global cfg (objs m') = (Ok T, m').
Proof.
  intros (Hparams & Hg & Hwalk)%transform_Ok_inv Hthis Hfuel.
  apply (transform_fuel isIdent (S fuel)); [lia| |done].
  rewrite transform_walk; [|by eapply check_params_any|done].
  pose proof (restores_walk _ _ _ _ _ _ _ Hwalk) as Hscope.
  pose proof (walk_certifies global cfg fuel ast (Mem h params) T m'
                (global_ok_bound _ _ Hg) Hwalk) as Hcert.
  rewrite (synthesizes_this_off _ _ Hthis) in Hcert.
  cbn [scope] in *. destruct m' as [h' sc']. cbn [objs scope] in *.
  subst sc'. by apply walk_certified_id.
Qed.

Lemma transform_idempotent_witness :
  transform ascii_ident false 9 8 ["g"] (Some "g") default_enables tree_curry
  = (Ok 14, Mem tree_curry_g ["g"])
  /\ transform ascii_ident false 10 14 ["g"] (Some "g") default_enables tree_curry_g
     = (Ok 14, Mem tree_curry_g ["g"]).
Proof.
  split; [reflexivity|].
  apply (transform_idempotent (dev:=false) ascii_ident 9 10 8 ["g"] (Some "g")
           default_enables tree_curry 14 (Mem tree_curry_g ["g"])).
  - reflexivity.
  - discriminate.
  - lia.
Defined.

(** C10: [transform] leaves the tree it is given as it is.  Whatever the
    outcome, a return or an exception, the store afterwards is the store
    before followed by freshly allocated objects: every object present
    before the call is afterwards as it was, field by field.  The scope
    list is the only thing the traversal updates in place. *)
Theorem transform_preserves_input {dev} isIdent fuel ast params global cfg h r m' :
  transform isIdent dev fuel ast params global cfg h = (r, m') ->
  (exists fresh, objs m' = (h ++ fresh)%list)
  /\ (forall l n, h !! l = Some n -> objs m' !! l = Some n).
Proof.
  intros Hrun.
  pose proof (extends_transform (dev:=dev) isIdent fuel ast params global cfg h) as Hh.
  rewrite Hrun in Hh. cbn in Hh. split.
  - destruct Hh as [fresh ->]. by exists fresh.
  - intros l n Hl. by eapply prefix_lookup_Some.
Qed.

Lemma transform_preserves_input_witness :
  (exists fresh, tree_curry_g = (tree_curry ++ fresh)%list)
  /\ (forall l n, tree_curry !! l = Some n -> tree_curry_g !! l = Some n).
Proof.
  apply (transform_preserves_input (dev:=false) ascii_ident 9 8 ["g"] (Some "g")
           default_enables tree_curry (Ok 14) (Mem tree_curry_g ["g"])).
  reflexivity.
Defined.

(** * Further properties of the code *)

(** ** The entry checks of transform *)

Lemma check_params_cases isIdent params m :
  (check_params isIdent params m = (Ok tt, m)
   /\ Forall (fun p => isIdent p = true) params /\ NoDup params)
  \/ ((exists msg, check_params isIdent params m
                   = (Abort (Throw (SyntaxError msg)), m))
      /\ ~ (Forall (fun p => isIdent p = true) params /\ NoDup params)).
Proof.
  induction params as [|param rest IH]; cbn [check_params].
  - left. split; [done|]. split; constructor.
  - destruct (isIdent param) eqn:Hid; cbn [negb].
    2:{ right. split; [eauto|]. intros [Hall _].
        apply Forall_cons in Hall as [? _]. congruence. }
    case_bool_decide as Hdup.
    { right. split; [eauto|]. intros [_ Hnd].
      by apply NoDup_cons in Hnd as [? _]. }
    destruct IH as [(Hok & Hall & Hnd)|(Herr & Hno)].
    + left. split; [done|]. split; [by constructor|by constructor].
    + right. split; [done|]. intros [Hall Hnd]. apply Hno.
      apply Forall_cons in Hall as [_ ?].
      apply NoDup_cons in Hnd as [_ ?]. done.
Qed.

Lemma global_ok_iff global params :
  global_ok global params = true <-> global_bound global params.
Proof.
  split; [apply global_ok_bound|].
  destruct global as [g|]; [|done]. cbn.
  intros [->|Hin]; [done|].
  by rewrite (bool_decide_eq_true_2 _ Hin), andb_false_r.
Qed.

(** X1: the entry checks.  [transform] looks at the tree exactly when
    every parameter name is an identifier, no name occurs twice, and the
    global binding, if any, is the self-reference or one of the
    parameters; it is then the walk of the tree with the parameter list as
    scope.  In every other case it throws a [SyntaxError] with the store
    and the parameter list untouched, whatever the tree and the
    switches. *)
Theorem transform_entry_checks {dev} isIdent fuel ast params global cfg h :
  let accepted :=
    Forall (fun p => isIdent p = true) params /\ NoDup params
    /\ global_bound global params in
  (accepted -> transform isIdent dev fuel ast params global cfg h
               = walk dev global cfg fuel ast (Mem h params))
  /\ (~ accepted -> exists msg,
        transform isIdent dev fuel ast params global cfg h
        = (Abort (Throw (SyntaxError msg)), Mem h params)).
Proof.
  cbn zeta. split.
  - intros (Hall & Hnd & Hg). apply transform_walk; [|by apply global_ok_iff].
    destruct (check_params_cases isIdent params (Mem h params))
      as [(? & _)|(_ & Hno)]; [done|]. by destruct Hno.
  - intros Hno. unfold transform.
    destruct (check_params_cases isIdent params (Mem h params))
      as [(Hok & Hall & Hnd)|((msg & Herr) & _)].
    + rewrite (bind_Ok _ _ _ _ _ Hok).
      destruct global as [g|]; [|by destruct Hno].
      destruct (bool_decide (g ≠ "this") && negb (bool_decide (g ∈ params)))
        eqn:Hg; [by eexists|].
      destruct Hno. split; [done|]. split; [done|].
      apply global_ok_iff. cbn. by rewrite Hg.
    + exists msg. by apply bind_Abort.
Qed.

Lemma transform_entry_checks_witness :
  transform ascii_ident false 9 8 ["g"] (Some "g") default_enables tree_curry
  = walk false (Some "g") default_enables 9 8 (Mem tree_curry ["g"])
  /\ exists msg,
       transform ascii_ident false 9 8 ["g"; "g"] (Some "g") default_enables
         tree_curry
       = (Abort (Throw (SyntaxError msg)), Mem tree_curry ["g"; "g"]).
Proof.
  split.
  - apply (transform_entry_checks (dev:=false) ascii_ident 9 8 ["g"] (Some "g")
             default_enables tree_curry).
    split; [|split].
    + repeat constructor.
    + apply (bool_decide_eq_true_1 _). reflexivity.
    + right. apply (bool_decide_eq_true_1 _). reflexivity.
  - apply (transform_entry_checks (dev:=false) ascii_ident 9 8 ["g"; "g"] (Some "g")
             default_enables tree_curry).
    intros (_ & Hnd & _). revert Hnd.
    apply (bool_decide_eq_false_1 _). reflexivity.
Defined.

(** ** Refusals *)

(** X2: an arrow function whose body is a block statement is never
    accepted, whatever the switches, the global binding and the scope:
    with the arrow switch on the walk ends in the block-statement
    violation, with it off in the disabled-expression violation, in both
    cases before a parameter is scanned or anything is allocated. *)
Theorem arrow_block_body_rejected {dev} global cfg fuel l params body async m :
  objs m !! l = Some (ArrowFunctionExpression params body async) ->
  objs m !! body = Some BlockStatement ->
  walk dev global cfg (S fuel) l m
  = (Abort (Throw (SyntaxError
       (if enableArrow cfg
        then "arrow function with block statement is not allowed"
        else "expression ArrowFunctionExpression is disabled"))), m).
Proof.
  intros Hl Hbody. cbn [walk].
  rewrite (bind_Ok _ _ _ _ _ (deref_Ok l m _ Hl)).
  cbn [ENTER node_type]. destruct (enableArrow cfg); [|done].
  rewrite (bind_Ok _ _ m tt m eq_refl).
  by rewrite (bind_Ok _ _ _ _ _ (deref_Ok body m _ Hbody)).
Qed.

Lemma arrow_block_body_rejected_witness :
  walk false (Some "this") default_enables 3 7 (Mem tree_misc ["x"])
  = (Abort (Throw (SyntaxError
       "arrow function with block statement is not allowed")),
     Mem tree_misc ["x"]).
Proof.
  apply (arrow_block_body_rejected (dev:=false) (Some "this") default_enables 2 7 [5] 6
           false (Mem tree_misc ["x"])); reflexivity.
Defined.

Lemma walk_ENTER_abort {dev} global cfg fuel l node m x :
  objs m !! l = Some node -> ENTER cfg node m = (Abort x, m) ->
  walk dev global cfg (S fuel) l m = (Abort x, m).
Proof.
  intros Hl HE. cbn [walk].
  rewrite (bind_Ok _ _ _ _ _ (deref_Ok l m _ Hl)). by apply bind_Abort.
Qed.

(** X3: the kinds behind a switch, and the kinds behind none.  On
    entering an update or assignment node the hook raises the violation
    naming the operator exactly when the mutation switch is off; on a
    construction, call or tagged template, a [this] node, an arrow
    function, the violation naming the node type exactly when the call,
    [this] or arrow switch is off.  A function, class, meta-property,
    yield, await or import expression is refused as not supported under
    every configuration, and any other kind as unknown.  The walk of a
    refused node ends in that violation with the memory untouched. *)
Theorem walk_refused_kinds {dev} global cfg fuel l node m :
  objs m !! l = Some node ->
  let disabled := Throw (SyntaxError ("expression " +:+ node_type node
                                      +:+ " is disabled")) in
  let behind (switch : bool) (raised : abort) :=
    (ENTER cfg node m = (Abort raised, m) <-> switch = false)
    /\ (switch = false -> walk dev global cfg (S fuel) l m = (Abort raised, m))
    /\ (switch = true -> ENTER cfg node m = (Ok tt, m)) in
  (forall op, (exists prefix a, node = UpdateExpression op prefix a)
              \/ (exists a b, node = AssignmentExpression op a b) ->
     behind (enableUpdate cfg)
       (Throw (SyntaxError ("operator " +:+ op +:+ " is disabled"))))
  /\ ((exists f args, node = NewExpression f args)
      \/ (exists f args o, node = CallExpression f args o)
      \/ (exists t q, node = TaggedTemplateExpression t q) ->
      behind (enableCall cfg) disabled)
  /\ (node = ThisExpression -> behind (enableThis cfg) disabled)
  /\ ((exists ps b a, node = ArrowFunctionExpression ps b a) ->
      behind (enableArrow cfg) disabled)
  /\ (node ∈ [FunctionExpression; ClassExpression; MetaProperty;
              YieldExpression; AwaitExpression; ImportExpression] ->
      behind false (Throw (SyntaxError ("expression " +:+ node_type node
                                        +:+ " is not supported"))))
  /\ ((node = Super \/ node = BlockStatement
       \/ (exists x, node = PrivateIdentifier x)
       \/ (exists t, node = OtherNode t)) ->
      behind false (Throw (SyntaxError ("unknown node type "
                                        +:+ node_type node)))).
Proof.
  intros Hl. cbn zeta.
  assert (forall (switch : bool) raised,
    ENTER cfg node m
    = (if switch then (Ok tt, m) else (Abort raised, m)) ->
    (ENTER cfg node m = (Abort raised, m) <-> switch = false)
    /\ (switch = false ->
        walk dev global cfg (S fuel) l m = (Abort raised, m))
    /\ (switch = true -> ENTER cfg node m = (Ok tt, m))) as Hbehind.
  { intros switch raised HE. split; [|split].
    - rewrite HE. by destruct switch.
    - intros ->. by eapply walk_ENTER_abort.
    - by intros ->. }
  split; [|split; [|split; [|split; [|split]]]].
  - intros op [(? & ? & ->)|(? & ? & ->)]; apply Hbehind; cbn [ENTER];
      by destruct (enableUpdate cfg).
  - intros [(? & ? & ->)|[(? & ? & ? & ->)|(? & ? & ->)]]; apply Hbehind;
      cbn [ENTER]; by destruct (enableCall cfg).
  - intros ->. apply Hbehind. cbn [ENTER]. by destruct (enableThis cfg).
  - intros (? & ? & ? & ->). apply Hbehind. cbn [ENTER].
    by destruct (enableArrow cfg).
  - rewrite !elem_of_cons, elem_of_nil.
    intros [->|[->|[->|[->|[->|[->|[]]]]]]]; by apply Hbehind.
  - intros [->|[->|[[? ->]|[? ->]]]]; by apply Hbehind.
Qed.

Lemma walk_refused_kinds_witness :
  walk false None default_enables 2 1 (Mem tree_misc ["Boolean"])
  = (Ok 1, Mem tree_misc ["Boolean"])
  /\ walk false None (Enables false false true false false) 1 1
       (Mem tree_misc ["Boolean"])
     = (Abort (Throw (SyntaxError "expression NewExpression is disabled")),
        Mem tree_misc ["Boolean"]).
Proof.
  split; [reflexivity|].
  destruct (walk_refused_kinds (dev:=false) None (Enables false false true false false)
              0 1 (NewExpression 0 []) (Mem tree_misc ["Boolean"]) eq_refl)
    as (_ & Hcall & _).
  destruct Hcall as (_ & Hoff & _).
  - left. exists 0, []. reflexivity.
  - apply Hoff. reflexivity.
Defined.

(** X4: the assertions of the handlers, build by build.  In devlop's
    development build a property access on [super], a property access by
    a private name and an object entry keyed by a private name end the
    walk in a failed assertion, with the memory untouched, under every
    configuration and whether or not the access is computed.  In the
    default build, where [ok] checks nothing, a property access on
    [super] is refused all the same, but by the hook, as a node of unknown
    type, once the object is walked; and a private name as a non-computed
    property name or key is not looked at: on a certified object, or
    with a certified value, the access or the entry comes back as it
    came, with the memory untouched. *)
Theorem walk_rejects_super_and_private global cfg fuel l m :
  (forall object property computed optional o,
      objs m !! l = Some (MemberExpression object property computed optional) ->
      objs m !! object = Some o ->
      node_type o = "Super"
      \/ (exists p, objs m !! property = Some p
                    /\ node_type p = "PrivateIdentifier") ->
      walk true global cfg (S fuel) l m = (Abort (Throw AssertionError), m))
  /\ (forall key value computed kind method shorthand k,
         objs m !! l
         = Some (Property key value computed kind method shorthand) ->
         objs m !! key = Some k -> node_type k = "PrivateIdentifier" ->
         walk true global cfg (S fuel) l m = (Abort (Throw AssertionError), m))
  /\ (forall object property computed optional o p,
         objs m !! l
         = Some (MemberExpression object property computed optional) ->
         objs m !! object = Some o -> node_type o = "Super" ->
         objs m !! property = Some p ->
         walk false global cfg (S (S fuel)) l m
         = (Abort (Throw (SyntaxError "unknown node type Super")), m))
  /\ (forall object property optional p,
         objs m !! l = Some (MemberExpression object property false optional) ->
         objs m !! property = Some p -> node_type p = "PrivateIdentifier" ->
         certified false false fuel cfg (objs m) (scope m) object = true ->
         walk false global cfg (S fuel) l m = (Ok l, m))
  /\ (forall key value kind method shorthand k,
         objs m !! l = Some (Property key value false kind method shorthand) ->
         objs m !! key = Some k -> node_type k = "PrivateIdentifier" ->
         certified false false fuel cfg (objs m) (scope m) value = true ->
         walk false global cfg (S fuel) l m = (Ok l, m)).
Proof.
  split; [|split; [|split; [|split]]].
  - intros object property computed optional o Hl Ho Hbad. cbn [walk].
    rewrite (bind_Ok _ _ _ _ _ (deref_Ok l m _ Hl)).
    rewrite (bind_Ok _ _ m tt m eq_refl).
    rewrite (bind_Ok _ _ _ _ _ (deref_Ok object m _ Ho)).
    case_bool_decide as HSuper; [|done].
    destruct Hbad as [?|(p & Hp & Hpriv)]; [done|].
    rewrite (bind_Ok _ _ _ _ _ (ok_true m)).
    rewrite (bind_Ok _ _ _ _ _ (deref_Ok property m _ Hp)).
    by rewrite bool_decide_eq_false_2 by (by intros ?).
  - intros key value computed kind method shorthand k Hl Hk Hpriv.
    cbn [walk].
    rewrite (bind_Ok _ _ _ _ _ (deref_Ok l m _ Hl)).
    rewrite (bind_Ok _ _ m tt m eq_refl).
    rewrite (bind_Ok _ _ _ _ _ (deref_Ok key m _ Hk)).
    by rewrite bool_decide_eq_false_2 by (by intros ?).
  - intros object property computed optional o p Hl Ho HSuper Hp.
    cbn [walk].
    rewrite (bind_Ok _ _ _ _ _ (deref_Ok l m _ Hl)).
    rewrite (bind_Ok _ _ m tt m eq_refl).
    rewrite (bind_Ok _ _ _ _ _ (deref_Ok object m _ Ho)).
    rewrite (bind_Ok _ _ m tt m eq_refl).
    rewrite (bind_Ok _ _ _ _ _ (deref_Ok property m _ Hp)).
    rewrite (bind_Ok _ _ m tt m eq_refl).
    apply bind_Abort.
    rewrite (bind_Ok _ _ _ _ _ (deref_Ok object m _ Ho)).
    apply bind_Abort. destruct o; try done. cbn in HSuper. by subst.
  - intros object property optional p Hl Hp _ Hobject.
    destruct m as [h sc]. cbn [objs scope] in *.
    apply walk_certified_id.
    eapply certified_MemberExpression; [exact Hl|exact Hobject|].
    unfold plain_name. by rewrite Hp.
  - intros key value kind method shorthand k Hl Hk _ Hvalue.
    destruct m as [h sc]. cbn [objs scope] in *.
    apply walk_certified_id.
    eapply certified_Property; [exact Hl| |exact Hvalue].
    unfold plain_name. by rewrite Hk.
Qed.

Lemma walk_rejects_super_and_private_witness :
  walk true (Some "this") (Enables true true true true true) 5 4
    (Mem tree_misc [])
  = (Abort (Throw AssertionError), Mem tree_misc [])
  /\ walk false (Some "this") (Enables true true true true true) 5 4
       (Mem tree_misc [])
     = (Abort (Throw (SyntaxError "unknown node type Super")),
        Mem tree_misc [])
  /\ walk false None default_enables 2 2 (Mem tree_private ["a"])
     = (Ok 2, Mem tree_private ["a"]).
Proof.
  split; [|split].
  - destruct (walk_rejects_super_and_private (Some "this")
                (Enables true true true true true) 4 4 (Mem tree_misc []))
      as (Hmember & _).
    apply (Hmember 2 3 false false Super); [reflexivity|reflexivity|].
    left. reflexivity.
  - destruct (walk_rejects_super_and_private (Some "this")
                (Enables true true true true true) 3 4 (Mem tree_misc []))
      as (_ & _ & Hsuper & _).
    apply (Hsuper 2 3 false false Super (Identifier "x")); reflexivity.
  - destruct (walk_rejects_super_and_private None default_enables 1 2
                (Mem tree_private ["a"]))
      as (_ & _ & _ & Hprivate & _).
    apply (Hprivate 0 1 false (PrivateIdentifier "x")); reflexivity.
Defined.

(** ** The binding scanner *)

Lemma for_of_app {A} (xs ys : list A) (body : A -> M unit) m :
  for_of (xs ++ ys) body m = (for_of xs body ;; for_of ys body) m.
Proof.
  revert m. induction xs as [|x xs IH]; intros m; cbn [for_of app].
  - done.
  - unfold bind. destruct (body x m) as [[[]|?] m1]; [|done].
    rewrite IH. done.
Qed.

(** X5: an object pattern with an entry that is neither a property nor
    a rest capture.  The scanner throws the unknown-object-pattern
    [SyntaxError] when it reaches that entry; the names bound by the
    entries before it have been pushed by then and stay in the scope, the
    entries after it are not looked at. *)
Theorem extractDeclaration_unknown_entry fuel h pattern before p after n
    names sc :
  h !! pattern = Some (ObjectPattern (before ++ p :: after)) ->
  collect (entry_names fuel h) before = Some names ->
  h !! p = Some n -> is_entry n = false ->
  extractDeclaration (S fuel) pattern (Mem h sc)
  = (Abort (Throw (SyntaxError "unknown ObjectPattern syntax")),
     Mem h (sc ++ names)%list).
Proof.
  intros Hl Hnames Hp Hn. cbn [extractDeclaration].
  rewrite (bind_Ok _ _ _ _ _ (deref_Ok pattern (Mem h sc) _ Hl)).
  rewrite for_of_app.
  match goal with
  | |- context [for_of before ?body] =>
      pose proof (scans_for_of before body (entry_names fuel h) h) as Hs
  end.
  unfold scans in Hs. specialize (Hs
    (fun x sc' => ltac:(
       unfold entry_names;
       destruct (h !! x) as [prop|] eqn:Hx;
       [rewrite (bind_Ok _ _ _ _ _ (deref_Ok x (Mem h sc') prop Hx));
        destruct prop; try (eexists _, _; reflexivity);
        apply scans_extractDeclaration
       |eexists _, _; unfold bind, deref; cbn; by rewrite Hx])) sc).
  rewrite Hnames in Hs. rewrite (bind_Ok _ _ _ _ _ Hs).
  cbn [for_of]. apply bind_Abort.
  rewrite (bind_Ok _ _ _ _ _ (deref_Ok p (Mem h _) n Hp)).
  by destruct n.
Qed.

Lemma extractDeclaration_unknown_entry_witness :
  extractDeclaration 3 12 (Mem tree_misc ["x"])
  = (Abort (Throw (SyntaxError "unknown ObjectPattern syntax")),
     Mem tree_misc ["x"; "p"]).
Proof.
  apply (extractDeclaration_unknown_entry 2 tree_misc 12 [10] 11 []
           (SpreadElement 9) ["p"] ["x"]); reflexivity.
Defined.

(** ** What a traversal does to the memory, whatever its outcome *)

Section post.

Context {R : mem -> mem -> Prop}.
Hypothesis R_refl : forall m, R m m.
Hypothesis R_trans : forall m1 m2 m3, R m1 m2 -> R m2 m3 -> R m1 m3.

Lemma post_pure {A} (c : M A) : (forall m, (c m).2 = m) -> post R c.
Proof. intros Hc m. by rewrite Hc. Qed.

Lemma post_bind {A B} (c : M A) (k : A -> M B) :
  post R c -> (forall a, post R (k a)) -> post R (bind c k).
Proof.
  intros Hc Hk m. unfold bind. specialize (Hc m).
  destruct (c m) as [[a|x] m1]; cbn in *; [|done].
  eapply R_trans; [exact Hc|apply Hk].
Qed.

Lemma post_for_of {A} (xs : list A) (body : A -> M unit) :
  (forall x, post R (body x)) -> post R (for_of xs body).
Proof.
  intros Hb. induction xs as [|x xs IH]; cbn [for_of].
  - by apply post_pure.
  - by apply post_bind.
Qed.

Lemma post_walk_children w cs :
  (forall l, post R (w l)) -> post R (walk_children w cs).
Proof.
  intros Hw. induction cs as [|[c|] cs IH]; cbn [walk_children].
  - by apply post_pure.
  - apply post_bind; [done|]. intros c'.
    apply post_bind; [done|]. intros cs'. by apply post_pure.
  - apply post_bind; [done|]. intros cs'. by apply post_pure.
Qed.

Lemma post_deref l : post R (deref l).
Proof. apply post_pure. intros m. unfold deref. by destruct (objs m !! l). Qed.

Lemma post_test cond err : post R (test cond err).
Proof. apply post_pure. by destruct cond. Qed.

Lemma post_ok {dev} cond : post R (ok dev cond).
Proof. apply post_pure. by destruct dev, cond. Qed.

Lemma post_ENTER cfg n : post R (ENTER cfg n).
Proof.
  apply post_pure. intros m.
  by destruct (ENTER_cases cfg n m) as [[_ ->]|[_ [? ->]]].
Qed.

End post.

Lemma post_run {A} R (c : M A) m r m' : post R c -> c m = (r, m') -> R m m'.
Proof. intros Hc Hrun. specialize (Hc m). by rewrite Hrun in Hc. Qed.

(** One step of a [post] goal, by the shape of the computation; [refl]
    and [trans] prove the relation a preorder. *)
Ltac post_step refl trans :=
  match goal with
  | |- post _ (bind _ _) => apply (post_bind trans); [|intros ?]
  | |- post _ (for_of _ _) => apply (post_for_of refl trans); intros ?
  | |- post _ (walk_children _ _) =>
      apply (post_walk_children refl trans); intros ?
  | |- post _ (descend _ _ _) => unfold descend
  | |- post _ (deref _) => apply (post_deref refl)
  | |- post _ (ENTER _ _) => apply (post_ENTER refl)
  | |- post _ (test _ _) => apply (post_test refl)
  | |- post _ (ok _ _) => apply (post_ok refl)
  | |- post _ (if ?b then _ else _) => destruct b
  | |- post _ (match ?x with _ => _ end) => destruct x
  | |- post _ _ => first [ apply (post_pure refl); intros ?; reflexivity
                         | solve [eauto] ]
  end.

Lemma store_eq_refl (m : mem) : objs m = objs m.
Proof. done. Qed.

Lemma store_eq_trans (m1 m2 m3 : mem) :
  objs m2 = objs m1 -> objs m3 = objs m2 -> objs m3 = objs m1.
Proof. congruence. Qed.

Lemma scope_prefix_refl (m : mem) : scope m `prefix_of` scope m.
Proof. done. Qed.

Lemma scope_prefix_trans (m1 m2 m3 : mem) :
  scope m1 `prefix_of` scope m2 -> scope m2 `prefix_of` scope m3 ->
  scope m1 `prefix_of` scope m3.
Proof. by etrans. Qed.

Lemma keeps_store_extractDeclaration fuel pattern :
  keeps_store (extractDeclaration fuel pattern).
Proof.
  unfold keeps_store. revert pattern.
  induction fuel as [|fuel IH]; intros pattern; cbn [extractDeclaration].
  - by apply (post_pure store_eq_refl).
  - assert (forall name, post (fun m m' => objs m' = objs m) (push name))
      by (by intros name m).
    repeat post_step store_eq_refl store_eq_trans.
Qed.

Lemma scope_grows_push name : scope_grows (push name).
Proof. intros m. cbn. by apply prefix_app_r. Qed.

Lemma scope_grows_alloc n : scope_grows (alloc n).
Proof. by intros m. Qed.

Lemma scope_grows_extractDeclaration fuel pattern :
  scope_grows (extractDeclaration fuel pattern).
Proof.
  unfold scope_grows. revert pattern.
  induction fuel as [|fuel IH]; intros pattern; cbn [extractDeclaration].
  - by apply (post_pure scope_prefix_refl).
  - pose proof scope_grows_push as Hpush. unfold scope_grows in Hpush.
    repeat post_step scope_prefix_refl scope_prefix_trans.
Qed.

(** X6: the scanner only appends.  Whatever its outcome, a return or an
    exception part of the way through a pattern, [extractDeclaration]
    leaves the store exactly as it is, allocating nothing, and the scope
    it leaves starts with the scope it found: it pushes names and never
    removes or reorders one. *)
Theorem extractDeclaration_only_appends fuel pattern m r m' :
  extractDeclaration fuel pattern m = (r, m') ->
  objs m' = objs m /\ scope m `prefix_of` scope m'.
Proof.
  intros Hrun. split.
  - exact (post_run _ _ _ _ _ (keeps_store_extractDeclaration fuel pattern)
             Hrun).
  - exact (post_run _ _ _ _ _ (scope_grows_extractDeclaration fuel pattern)
             Hrun).
Qed.

Lemma extractDeclaration_only_appends_witness :
  objs (Mem tree_misc ["x"; "p"]) = objs (Mem tree_misc ["x"])
  /\ scope (Mem tree_misc ["x"]) `prefix_of` scope (Mem tree_misc ["x"; "p"]).
Proof.
  apply (extractDeclaration_only_appends 3 12 (Mem tree_misc ["x"])
           (Abort (Throw (SyntaxError "unknown ObjectPattern syntax")))
           (Mem tree_misc ["x"; "p"])).
  reflexivity.
Defined.

Lemma scope_grows_push_walk_splice {A B} fuel params (w : M A)
    (k : A -> M B) :
  scope_grows w -> restores w -> (forall a, scope_grows (k a)) ->
  scope_grows (length <- scope_length ;;
               for_of params (extractDeclaration fuel) ;;
               body' <- w ;;
               splice length ;;
               k body').
Proof.
  intros Hw Hrestores Hk m.
  destruct ((length <- scope_length ;;
             for_of params (extractDeclaration fuel) ;;
             body' <- w ;; splice length ;; k body') m) as [r m'] eqn:Hrun.
  cbn [snd].
  apply bind_inv in Hrun as [(x & [=] & _)|(len & ? & [= <- <-] & Hrun)].
  assert (scope_grows (for_of params (extractDeclaration fuel))) as Hscan.
  { apply (post_for_of scope_prefix_refl scope_prefix_trans).
    apply scope_grows_extractDeclaration. }
  apply bind_inv in Hrun as [(x & Hrun & _)|([] & m1 & Hrun & Hrest)].
  { exact (post_run _ _ _ _ _ Hscan Hrun). }
  pose proof (post_run _ _ _ _ _ Hscan Hrun) as Hm1.
  apply bind_inv in Hrest as [(x & Hbody & _)|(body' & m2 & Hbody & Hrest)].
  { etrans; [exact Hm1|]. exact (post_run _ _ _ _ _ Hw Hbody). }
  apply for_of_extractDeclaration_Ok_inv in Hrun as (names & _ & ->).
  apply Hrestores in Hbody. cbn [scope] in Hbody.
  apply bind_inv in Hrest as [(x & [=] & _)|([] & ? & [= <-] & Hrest)].
  pose proof (post_run _ _ _ _ _ (Hk body') Hrest) as Hm'.
  cbn [scope] in Hm'. by rewrite Hbody, take_app_length in Hm'.
Qed.

Lemma scope_grows_walk {dev} global cfg fuel n :
  scope_grows (walk dev global cfg fuel n).
Proof.
  unfold scope_grows. revert n.
  induction fuel as [|fuel IH]; intros n; cbn [walk].
  - by apply (post_pure scope_prefix_refl).
  - pose proof scope_grows_alloc as Halloc. unfold scope_grows in Halloc.
    apply (post_bind scope_prefix_trans); [apply (post_deref scope_prefix_refl)|].
    intros node.
    apply (post_bind scope_prefix_trans); [apply (post_ENTER scope_prefix_refl)|].
    intros _.
    destruct node;
      try (repeat post_step scope_prefix_refl scope_prefix_trans; fail).
    apply (post_bind scope_prefix_trans); [apply (post_deref scope_prefix_refl)|].
    intros b. case_bool_decide; [by apply (post_pure scope_prefix_refl)|].
    apply (scope_grows_push_walk_splice fuel params (walk dev global cfg fuel body));
      [apply IH|apply restores_walk|].
    intros body'. unfold scope_grows.
    repeat post_step scope_prefix_refl scope_prefix_trans.
Qed.

(** X7: what [transform] does to the parameter list it is given, which is
    the walker's scope array.  If it returns, the list is as it was.  If
    it throws, the list still starts with the parameters as they were,
    but may have grown: names pushed for an arrow function whose body
    threw are never cut off again. *)
Theorem transform_scope_prefix {dev} isIdent fuel ast params global cfg h r m' :
  transform isIdent dev fuel ast params global cfg h = (r, m') ->
  params `prefix_of` scope m'
  /\ (forall T, r = Ok T -> scope m' = params).
Proof.
  intros Hrun. split.
  - revert Hrun. unfold transform.
    match goal with
    | |- ?c ?m = _ -> _ =>
        assert (scope_grows c) as Hc;
        [|intros Hrun; exact (post_run _ _ _ _ _ Hc Hrun)]
    end.
    unfold scope_grows.
    apply (post_bind scope_prefix_trans).
    { apply (post_pure scope_prefix_refl). apply check_params_mem. }
    intros _. pose proof (scope_grows_walk (dev:=dev) global cfg fuel ast).
    destruct global as [g|]; [|done].
    destruct (bool_decide (g ≠ "this") && negb (bool_decide (g ∈ params)));
      [by apply (post_pure scope_prefix_refl)|done].
  - intros T ->. apply transform_Ok_inv in Hrun as (_ & _ & Hwalk).
    by apply restores_walk in Hwalk.
Qed.

Lemma transform_scope_prefix_witness :
  transform ascii_ident false 9 8 ["g"] None default_enables tree_curry
  = (Abort (Throw (ReferenceError "variable 'c' is not defined")),
     Mem tree_curry ["g"; "a"; "b"])
  /\ ["g"] `prefix_of` ["g"; "a"; "b"].
Proof.
  split; [reflexivity|].
  apply (transform_scope_prefix (dev:=false) ascii_ident 9 8 ["g"] None default_enables
           tree_curry
           (Abort (Throw (ReferenceError "variable 'c' is not defined")))
           (Mem tree_curry ["g"; "a"; "b"])).
  reflexivity.
Defined.

(** ** Turning switches on *)

Lemma simulates_refl {A} (c : M A) : simulates c c.
Proof. by intros m a m'. Qed.

Lemma simulates_bind {A B} (c c' : M A) (k k' : A -> M B) :
  simulates c c' -> (forall a, simulates (k a) (k' a)) ->
  simulates (bind c k) (bind c' k').
Proof.
  intros Hc Hk m b m' (a & m1 & Hrun & Hrest)%bind_Ok_inv.
  rewrite (bind_Ok c' k' m a m1) by (by apply Hc). by apply Hk.
Qed.

Lemma simulates_walk_children (w w' : nat -> M nat) cs :
  (forall l, simulates (w l) (w' l)) ->
  simulates (walk_children w cs) (walk_children w' cs).
Proof.
  intros Hw. induction cs as [|[c|] cs IH]; cbn [walk_children].
  - apply simulates_refl.
  - apply simulates_bind; [done|]. intros c'.
    apply simulates_bind; [done|]. intros cs'. apply simulates_refl.
  - apply simulates_bind; [done|]. intros cs'. apply simulates_refl.
Qed.

Lemma admitted_mono cfg cfg' n :
  enables_le cfg cfg' -> admitted cfg n = true -> admitted cfg' n = true.
Proof.
  intros (Hthis & Hcall & Harrow & Hupdate & Hinspect).
  destruct n; cbn [admitted]; try done.
  all: rewrite !andb_true_iff, !negb_true_iff, !andb_false_iff,
         !negb_false_iff; intros [[?|?] [?|?]]; split; auto.
Qed.

Lemma simulates_ENTER cfg cfg' n :
  enables_le cfg cfg' -> simulates (ENTER cfg n) (ENTER cfg' n).
Proof.
  intros Hle m [] m' [Hadm ->]%ENTER_Ok_inv.
  apply ENTER_admitted. by eapply admitted_mono.
Qed.

Ltac simulates_step :=
  match goal with
  | |- simulates (bind _ _) (bind _ _) => apply simulates_bind; [|intros ?]
  | |- simulates (descend _ _ _) (descend _ _ _) => unfold descend
  | |- simulates (walk_children _ _) (walk_children _ _) =>
      apply simulates_walk_children; intros ?
  | |- simulates (if ?b then _ else _) (if ?b then _ else _) => destruct b
  | |- simulates (match ?x with _ => _ end) (match ?x with _ => _ end) =>
      destruct x
  | |- simulates ?c ?c => apply simulates_refl
  | |- simulates _ _ => solve [eauto]
  end.

Lemma simulates_walk {dev} global cfg cfg' fuel n :
  enables_le cfg cfg' ->
  simulates (walk dev global cfg fuel n) (walk dev global cfg' fuel n).
Proof.
  intros Hle. revert n.
  induction fuel as [|fuel IH]; intros n; cbn [walk];
    [apply simulates_refl|].
  apply simulates_bind; [apply simulates_refl|]. intros node.
  apply simulates_bind; [by apply simulates_ENTER|]. intros _.
  destruct node; repeat simulates_step.
Qed.

(** X8: turning switches on.  Whatever [transform] returns under some
    switches it returns under any switches that have at least these on,
    the same node in the same memory: a switch only ever refuses, it
    never changes what is built, and no tree is accepted for a switch
    being off. *)
Theorem transform_policy_monotone {dev} isIdent fuel ast params global cfg cfg'
    h T m' :
  transform isIdent dev fuel ast params global cfg h = (Ok T, m') ->
  enables_le cfg cfg' ->
  transform isIdent dev fuel ast params global cfg' h = (Ok T, m').
Proof.
  intros (Hparams & Hg & Hwalk)%transform_Ok_inv Hle.
  rewrite transform_walk by done.
  by eapply simulates_walk.
Qed.

Lemma transform_policy_monotone_witness :
  transform ascii_ident false 9 8 ["g"] (Some "g") default_enables tree_curry
  = (Ok 14, Mem tree_curry_g ["g"])
  /\ transform ascii_ident false 9 8 ["g"] (Some "g")
       (Enables true true true false true) tree_curry
     = (Ok 14, Mem tree_curry_g ["g"]).
Proof.
  split; [reflexivity|].
  apply (transform_policy_monotone (dev:=false) ascii_ident 9 8 ["g"] (Some "g")
           default_enables (Enables true true true false true) tree_curry
           14 (Mem tree_curry_g ["g"])).
  - reflexivity.
  - repeat split; cbn; intros H; first [reflexivity|exact H].
Defined.

(** ** Unresolved references *)

Lemma resolves_base {A} (c : M A) :
  (forall m, match (c m).1 with
             | Abort (Throw (ReferenceError _)) => False
             | _ => True
             end) -> resolves c.
Proof. intros Hc m msg Heq. specialize (Hc m). by rewrite Heq in Hc. Qed.

Lemma resolves_bind {A B} (c : M A) (k : A -> M B) :
  resolves c -> (forall a, resolves (k a)) -> resolves (bind c k).
Proof.
  intros Hc Hk m msg. unfold bind. specialize (Hc m msg).
  destruct (c m) as [[a|x] m1]; cbn in *; [apply Hk|].
  intros [= ->]. by apply Hc.
Qed.

Lemma resolves_for_of {A} (xs : list A) (body : A -> M unit) :
  (forall x, resolves (body x)) -> resolves (for_of xs body).
Proof.
  intros Hb. induction xs as [|x xs IH]; cbn [for_of].
  - by apply resolves_base.
  - by apply resolves_bind.
Qed.

Lemma resolves_walk_children w cs :
  (forall l, resolves (w l)) -> resolves (walk_children w cs).
Proof.
  intros Hw. induction cs as [|[c|] cs IH]; cbn [walk_children].
  - by apply resolves_base.
  - apply resolves_bind; [done|]. intros c'.
    apply resolves_bind; [done|]. intros cs'. by apply resolves_base.
  - apply resolves_bind; [done|]. intros cs'. by apply resolves_base.
Qed.

Lemma resolves_deref l : resolves (deref l).
Proof.
  apply resolves_base. intros m. unfold deref. by destruct (objs m !! l).
Qed.

Lemma resolves_ENTER cfg n : resolves (ENTER cfg n).
Proof.
  apply resolves_base. intros m.
  by destruct (ENTER_cases cfg n m) as [[_ ->]|[_ [? ->]]].
Qed.

Lemma resolves_ok {dev} cond : resolves (ok dev cond).
Proof. apply resolves_base. intros m. by destruct dev, cond. Qed.

Lemma resolves_test cond err : resolves (test cond err).
Proof. apply resolves_base. intros m. by destruct cond. Qed.

Ltac resolves_step :=
  match goal with
  | |- resolves (ok _ _) => apply resolves_ok
  | |- resolves (test _ _) => apply resolves_test
  | |- resolves (bind _ _) => apply resolves_bind; [|intros ?]
  | |- resolves (for_of _ _) => apply resolves_for_of; intros ?
  | |- resolves (walk_children _ _) => apply resolves_walk_children; intros ?
  | |- resolves (descend _ _ _) => unfold descend
  | |- resolves (deref _) => apply resolves_deref
  | |- resolves (ENTER _ _) => apply resolves_ENTER
  | |- resolves (if ?b then _ else _) => destruct b
  | |- resolves (match ?x with _ => _ end) => destruct x
  | |- resolves _ =>
      first [ apply resolves_base; intros ?; cbn; done | solve [eauto] ]
  end.

Lemma resolves_extractDeclaration fuel pattern :
  resolves (extractDeclaration fuel pattern).
Proof.
  revert pattern.
  induction fuel as [|fuel IH]; intros pattern; cbn [extractDeclaration].
  - by apply resolves_base.
  - repeat resolves_step.
Qed.

Lemma resolves_walk {dev} g cfg fuel n : resolves (walk dev (Some g) cfg fuel n).
Proof.
  revert n. induction fuel as [|fuel IH]; intros n; cbn [walk].
  - by apply resolves_base.
  - pose proof (resolves_extractDeclaration fuel).
    repeat resolves_step.
Qed.

(** X9: with a global binding configured, [transform] never ends in an
    unresolved-reference error, whatever the tree, the parameters and
    the switches: every exception it throws is one of the policy, the
    pattern or the entry checks. *)
Theorem transform_global_never_unresolved {dev} isIdent fuel ast params g cfg h
    msg :
  (transform isIdent dev fuel ast params (Some g) cfg h).1
  <> Abort (Throw (ReferenceError msg)).
Proof.
  unfold transform.
  match goal with
  | |- (?c ?m).1 <> _ => assert (resolves c) as Hc; [|exact (Hc m msg)]
  end.
  apply resolves_bind.
  { induction params as [|param rest IH]; cbn [check_params];
      repeat resolves_step. }
  intros _.
  destruct (bool_decide (g ≠ "this") && negb (bool_decide (g ∈ params)));
    [by apply resolves_base|apply resolves_walk].
Qed.

(** ** The returned reference *)

(** X10: what the returned reference tells.  When [transform] returns, the
    result is either the very node it was given, and then the store is
    untouched, or a node that was not in the store before; so the result
    is the input reference exactly when nothing was rewritten, and a
    caller may test for that with [===]. *)
Theorem transform_same_or_fresh {dev} isIdent fuel ast params global cfg h T m' :
  transform isIdent dev fuel ast params global cfg h = (Ok T, m') ->
  ast < length h
  /\ ((T = ast /\ m' = Mem h params)
      \/ (length h <= T /\ T < length (objs m')))
  /\ (T = ast <-> objs m' = h).
Proof.
  intros (_ & _ & Hwalk)%transform_Ok_inv.
  apply same_or_fresh_walk in Hwalk as [Hast Hcases]. cbn [objs] in *.
  split; [done|]. split; [done|].
  destruct Hcases as [[-> ->]|[? ?]]; [done|].
  split; [lia|]. intros Heq. rewrite Heq in *. lia.
Qed.

Lemma transform_same_or_fresh_witness :
  (14 = 8 <-> tree_curry_g = tree_curry)
  /\ (22 = 22 <-> tree_complex_pattern = tree_complex_pattern).
Proof.
  split.
  - apply (transform_same_or_fresh (dev:=false) ascii_ident 9 8 ["g"] (Some "g")
             default_enables tree_curry 14 (Mem tree_curry_g ["g"])).
    reflexivity.
  - apply (transform_same_or_fresh (dev:=false) ascii_ident 9 22 [] (Some "this")
             default_enables tree_complex_pattern 22
             (Mem tree_complex_pattern [])).
    reflexivity.
Defined.

(** ** Without a global binding *)

Lemma walk_children_returns_input (w : loc -> M loc) cs m cs' m' :
  returns_input w -> walk_children w cs m = (Ok cs', m') ->
  cs' = cs /\ m' = m.
Proof.
  intros Hw. revert m cs'. induction cs as [|[c|] cs IH]; intros m cs';
    cbn [walk_children].
  - by intros [= <- <-].
  - intros (c' & m1 & Hc & Hrun)%bind_Ok_inv.
    apply bind_Ok_inv in Hrun as (cs'' & m2 & Hcs & [= <- <-]).
    apply Hw in Hc as [-> ->]. by apply IH in Hcs as [-> ->].
  - intros (cs'' & m2 & Hcs & [= <- <-])%bind_Ok_inv.
    by apply IH in Hcs as [-> ->].
Qed.

Lemma returns_input_walk {dev} cfg fuel : returns_input (walk dev None cfg fuel).
Proof.
  induction fuel as [|fuel IH]; intros n m T m'; [done|]. cbn [walk].
  intros (node & ? & [Hl ->]%deref_Ok_inv & Hrun)%bind_Ok_inv.
  apply bind_Ok_inv in Hrun as ([] & ? & [_ ->]%ENTER_Ok_inv & Hrun).
  destruct node;
    try (unfold descend in Hrun;
         apply bind_Ok_inv in Hrun as (cs & m1 & Hcs & Hrun);
         apply (walk_children_returns_input _ _ _ _ _ IH) in Hcs as [-> ->];
         rewrite bool_decide_eq_true_2 in Hrun by done;
         by injection Hrun as <- <-).
  - apply bind_Ok_inv in Hrun as (bound & ? & [= <- <-] & Hrun).
    destruct (bool_decide (name ∈ scope m)); [|done].
    by injection Hrun as <- <-.
  - apply bind_Ok_inv in Hrun as (o & ? & [_ ->]%deref_Ok_inv & Hrun).
    apply bind_Ok_inv in Hrun as ([] & ? & [_ ->]%ok_Ok_inv & Hrun).
    apply bind_Ok_inv in Hrun as (p & ? & [_ ->]%deref_Ok_inv & Hrun).
    apply bind_Ok_inv in Hrun as ([] & ? & [_ ->]%ok_Ok_inv & Hrun).
    apply bind_Ok_inv in Hrun as (object' & m1 & [-> ->]%IH & Hrun).
    apply bind_Ok_inv in Hrun as (property' & m2 & Hwp & Hrun).
    assert (property' = property /\ m2 = m) as [-> ->].
    { destruct computed; [by apply IH|by injection Hwp as <- <-]. }
    rewrite bool_decide_eq_true_2 in Hrun by done.
    by injection Hrun as <- <-.
  - apply bind_Ok_inv in Hrun as (b & ? & [_ ->]%deref_Ok_inv & Hrun).
    case_bool_decide; [done|].
    apply bind_Ok_inv in Hrun as (len & ? & [= <- <-] & Hrun).
    apply bind_Ok_inv in Hrun as ([] & m1 & Hscan & Hrun).
    apply for_of_extractDeclaration_Ok_inv in Hscan as (names & _ & ->).
    apply bind_Ok_inv in Hrun as (body' & m2 & [-> ->]%IH & Hrun).
    apply bind_Ok_inv in Hrun as ([] & ? & [= <-] & Hrun).
    rewrite bool_decide_eq_true_2 in Hrun by done.
    injection Hrun as <- <-. cbn [objs scope].
    rewrite take_app_length. by destruct m.
  - apply bind_Ok_inv in Hrun as (k & ? & [_ ->]%deref_Ok_inv & Hrun).
    apply bind_Ok_inv in Hrun as ([] & ? & [_ ->]%ok_Ok_inv & Hrun).
    apply bind_Ok_inv in Hrun as (key' & m1 & Hwk & Hrun).
    assert (key' = key /\ m1 = m) as [-> ->].
    { destruct computed; [by apply IH|by injection Hwk as <- <-]. }
    apply bind_Ok_inv in Hrun as (value' & m2 & [-> ->]%IH & Hrun).
    rewrite bool_decide_eq_true_2 in Hrun by done.
    by injection Hrun as <- <-.
Qed.

(** X11: without a global binding [transform] only validates.  If it
    returns, it returns the very node it was given, with nothing
    allocated and the parameter list as it was, and the tree is certified
    under the switches with the parameter list as scope: every node the
    walker reaches is of an admitted kind with an admitted operator, and
    every identifier it reaches is a member of the parameter list or of
    the names bound by an enclosing arrow function (the parameter
    patterns of arrow functions and non-computed property names and keys
    are not reached).  Conversely, past the entry checks on the parameter
    names, every tree so certified is returned in this way. *)
Theorem transform_without_global {dev} isIdent fuel ast params cfg h :
  (forall T m',
      transform isIdent dev fuel ast params None cfg h = (Ok T, m') ->
      T = ast /\ m' = Mem h params
      /\ certified dev false (S fuel) cfg h params ast = true)
  /\ (Forall (fun p => isIdent p = true) params -> NoDup params ->
      certified dev false fuel cfg h params ast = true ->
      transform isIdent dev fuel ast params None cfg h
      = (Ok ast, Mem h params)).
Proof.
  split.
  - intros T m' (_ & _ & Hwalk)%transform_Ok_inv.
    pose proof (walk_certifies None cfg fuel ast (Mem h params) T m' I Hwalk)
      as Hcert.
    apply returns_input_walk in Hwalk as [-> ->]. split; [done|].
    split; [done|]. by rewrite synthesizes_this_off in Hcert.
  - intros Hall Hnd Hcert.
    rewrite transform_walk; [by apply walk_certified_id| |done].
    destruct (check_params_cases isIdent params (Mem h params))
      as [(? & _)|(_ & Hno)]; [done|]. by destruct Hno.
Qed.

Lemma transform_without_global_witness :
  transform ascii_ident false 9 22 ["x"] None default_enables tree_complex_pattern
  = (Ok 22, Mem tree_complex_pattern ["x"]).
Proof.
  apply (transform_without_global (dev:=false) ascii_ident 9 22 ["x"] default_enables
           tree_complex_pattern).
  - repeat constructor.
  - apply (bool_decide_eq_true_1 _). reflexivity.
  - reflexivity.
Defined.

(** X12: the output is accepted again without a global binding.
    Whatever [transform] returns under a global binding (with the [this]
    switch on in case it is the self-reference), [transform] run on it
    with the same parameter list and switches and no global binding
    returns the same node, with nothing allocated: the walker comes
    across no identifier it would have to resolve through a global
    binding. *)
Theorem transform_output_needs_no_global {dev} isIdent fuel fuel' ast params
    global cfg h T m' :
  transform isIdent dev fuel ast params global cfg h = (Ok T, m') ->
  (global = Some "this" -> enableThis cfg = true) ->
  fuel < fuel' ->
  transform isIdent dev fuel' T params None cfg (objs m') = (Ok T, m').
Proof.
  intros (Hparams & Hg & Hwalk)%transform_Ok_inv Hthis Hfuel.
  apply (transform_fuel isIdent (S fuel)); [lia| |done].
  rewrite transform_walk; [|by eapply check_params_any|done].
  pose proof (restores_walk _ _ _ _ _ _ _ Hwalk) as Hscope.
  pose proof (walk_certifies global cfg fuel ast (Mem h params) T m'
                (global_ok_bound _ _ Hg) Hwalk) as Hcert.
  rewrite (synthesizes_this_off _ _ Hthis) in Hcert.
  cbn [scope] in *. destruct m' as [h' sc']. cbn [objs scope] in *.
  subst sc'. by apply walk_certified_id.
Qed.

Lemma transform_output_needs_no_global_witness :
  transform ascii_ident false 10 14 ["g"] None default_enables tree_curry_g
  = (Ok 14, Mem tree_curry_g ["g"]).
Proof.
  apply (transform_output_needs_no_global (dev:=false) ascii_ident 9 10 8 ["g"]
           (Some "g") default_enables tree_curry 14
           (Mem tree_curry_g ["g"])).
  - reflexivity.
  - discriminate.
  - lia.
Defined.

(** ** What a rewrite carries over *)

Lemma blank_shape a b : shape a = shape b -> blank a = blank b.
Proof.
  revert b. induction a as [|[x|] a IH]; intros [|[y|] b]; try done;
    intros [= Hs]; cbn; f_equal; by apply IH.
Qed.

Lemma shape_blank cs : shape (blank cs) = shape cs.
Proof. induction cs as [|[x|] cs IH]; cbn; by f_equal. Qed.

Lemma skeleton_unhandled n :
  handled n = false -> skeleton n = with_children n (blank (children n)).
Proof. by destruct n. Qed.

Lemma shape_all_present cs (ls : list loc) :
  shape cs = shape (Some <$> ls) -> length (present cs) = length ls.
Proof.
  intros Hs. rewrite <- (shape_present _ _ Hs) in Hs.
  apply (f_equal length) in Hs. unfold shape in Hs.
  by rewrite !length_fmap in Hs.
Qed.

(** Rebuilding a rebuilt node is rebuilding the node. *)
Lemma with_children_twice n cs cs2 :
  shape cs = shape (children n) -> shape cs2 = shape (children n) ->
  with_children (with_children n cs) cs2 = with_children n cs2.
Proof.
  destruct n; cbn [children]; intros Hs Hs2; try done;
    try (destruct cs as [|[?|] [|[?|] [|[?|] [|]]]]; cbn in Hs;
         try discriminate Hs;
         destruct cs2 as [|[?|] [|[?|] [|[?|] [|]]]]; cbn in Hs2;
         try discriminate Hs2; done).
  cbn [with_children]. do 2 f_equal.
  all: rewrite <- (shape_present _ _ Hs), <- fmap_take, present_Some,
         length_take, (shape_all_present _ _ Hs), length_app; f_equal; lia.
Qed.

Lemma skeleton_with_children n cs :
  handled n = false -> shape cs = shape (children n) ->
  skeleton (with_children n cs) = skeleton n.
Proof.
  intros Hn Hs.
  rewrite !skeleton_unhandled by (by rewrite ?handled_with_children).
  rewrite children_with_children by done.
  rewrite with_children_twice; [|done|by rewrite shape_blank].
  f_equal. by apply blank_shape.
Qed.

(** X13: what a rewrite carries over.  The node [walk] returns is, up to
    the references the walker may replace, the node it was given: it has
    the same type, operator and flags, the same parameter list, the same
    non-computed property name or key and the same holes in its child
    arrays.  The one exception is an identifier that is not in scope,
    which comes back as a non-computed, non-optional property access. *)
Theorem walk_keeps_skeleton {dev} global cfg fuel n m T m' :
  walk dev global cfg fuel n m = (Ok T, m') ->
  exists node node',
    objs m !! n = Some node /\ objs m' !! T = Some node'
    /\ (skeleton node' = skeleton node
        \/ exists name object property,
             node = Identifier name /\ (name ∉ scope m)
             /\ node' = MemberExpression object property false false).
Proof.
  destruct fuel as [|fuel]; [done|]. cbn [walk].
  intros (node & ? & [Hl ->]%deref_Ok_inv & Hrun)%bind_Ok_inv.
  apply bind_Ok_inv in Hrun as ([] & ? & [_ ->]%ENTER_Ok_inv & Hrun).
  exists node.
  assert (forall c m0 r m1, walk dev global cfg fuel c m0 = (r, m1) ->
            objs m0 `prefix_of` objs m1) as Hext.
  { intros c m0 r m1. apply extends_run, extends_walk. }
  destruct node;
    try (unfold descend in Hrun;
         apply bind_Ok_inv in Hrun as (cs & m1 & Hcs & Hrun);
         apply reuse_or_alloc_inv in Hrun as (Hl' & _ & _);
         [eexists; split; [done|]; split; [exact Hl'|]; left;
          apply skeleton_with_children; [done|by eapply walk_children_shape]
         |intros ->%bool_decide_eq_true; rewrite with_children_children;
          eapply prefix_lookup_Some; [exact Hl|];
          eapply extends_run; [|exact Hcs];
          apply extends_walk_children; intros ?; apply extends_walk]).
  - (* Identifier *)
    apply bind_Ok_inv in Hrun as (bound & ? & [= <- <-] & Hrun).
    case_bool_decide as Hin.
    { injection Hrun as <- <-. eexists. split; [done|]. split; [done|].
      by left. }
    destruct global as [g|]; [|done].
    apply bind_Ok_inv in Hrun as (object & ? & [= <- <-] & Hrun).
    apply bind_Ok_inv in Hrun as (property & ? & [= <- <-] & Hrun).
    injection Hrun as <- <-. cbn [objs scope].
    eexists. split; [done|]. split.
    { apply list_lookup_middle. done. }
    right. by eexists _, _, _.
  - (* MemberExpression *)
    apply bind_Ok_inv in Hrun as (o & ? & [_ ->]%deref_Ok_inv & Hrun).
    apply bind_Ok_inv in Hrun as ([] & ? & [_ ->]%ok_Ok_inv & Hrun).
    apply bind_Ok_inv in Hrun as (p & ? & [_ ->]%deref_Ok_inv & Hrun).
    apply bind_Ok_inv in Hrun as ([] & ? & [_ ->]%ok_Ok_inv & Hrun).
    apply bind_Ok_inv in Hrun as (object' & m1 & Hwo & Hrun).
    apply bind_Ok_inv in Hrun as (property' & m2 & Hwp & Hrun).
    apply reuse_or_alloc_inv in Hrun as (Hl' & _ & _).
    + eexists. split; [done|]. split; [exact Hl'|]. left. cbn.
      destruct computed; [done|]. by injection Hwp as <- <-.
    + intros [-> ->]%bool_decide_eq_true.
      eapply prefix_lookup_Some; [exact Hl|].
      etrans; [by eapply Hext|].
      destruct computed; [by eapply Hext|by injection Hwp as <-].
  - (* ArrowFunctionExpression *)
    apply bind_Ok_inv in Hrun as (b & ? & [_ ->]%deref_Ok_inv & Hrun).
    case_bool_decide; [done|].
    apply bind_Ok_inv in Hrun as (len & ? & [= <- <-] & Hrun).
    apply bind_Ok_inv in Hrun as ([] & m1 & Hscan & Hrun).
    apply for_of_extractDeclaration_Ok_inv in Hscan as (names & _ & ->).
    apply bind_Ok_inv in Hrun as (body' & m2 & Hwb & Hrun).
    apply bind_Ok_inv in Hrun as ([] & ? & [= <-] & Hrun).
    apply reuse_or_alloc_inv in Hrun as (Hl' & _ & _).
    + eexists. split; [done|]. split; [exact Hl'|]. by left.
    + intros ->%bool_decide_eq_true. cbn [objs].
      eapply prefix_lookup_Some; [exact Hl|]. by apply Hext in Hwb.
  - (* Property *)
    apply bind_Ok_inv in Hrun as (k & ? & [_ ->]%deref_Ok_inv & Hrun).
    apply bind_Ok_inv in Hrun as ([] & ? & [_ ->]%ok_Ok_inv & Hrun).
    apply bind_Ok_inv in Hrun as (key' & m1 & Hwk & Hrun).
    apply bind_Ok_inv in Hrun as (value' & m2 & Hwv & Hrun).
    apply reuse_or_alloc_inv in Hrun as (Hl' & _ & _).
    + eexists. split; [done|]. split; [exact Hl'|]. left. cbn.
      destruct computed; [done|]. by injection Hwk as <- <-.
    + intros [-> ->]%bool_decide_eq_true.
      eapply prefix_lookup_Some; [exact Hl|].
      etrans; [|by eapply Hext].
      destruct computed; [by eapply Hext|by injection Hwk as <-].
Qed.

Lemma walk_keeps_skeleton_witness :
  exists node node',
    tree_curry !! 8 = Some node /\ tree_curry_g !! 14 = Some node'
    /\ (skeleton node' = skeleton node
        \/ exists name object property,
             node = Identifier name /\ (name ∉ ["g"])
             /\ node' = MemberExpression object property false false).
Proof.
  apply (walk_keeps_skeleton (dev:=false) (Some "g") default_enables 9 8
           (Mem tree_curry ["g"]) 14 (Mem tree_curry_g ["g"])).
  reflexivity.
Defined.
